(** * include/macros.h: the GPU data-directive macros, and their expansion

    The header defines four variadic function-like macros twice, once in
    each branch of [#ifdef OMPGPU].  What it "does" is what the C
    preprocessor does with it, so the development follows the
    preprocessor:

    - [Text]: the few string functions the model needs;
    - [Cpp]: the lines of a translation unit: conditional inclusion,
      [#define] of function-like macros, the macro table, and a first,
      coarse expansion that takes the arguments as spellings;
    - [MacrosH]: the fifteen lines of the header, verbatim, and the macro
      table they leave in each mode;
    - [Tokens]: macro expansion proper, on preprocessing tokens, with the
      expansion of the arguments, the rescan and the hide sets, applied to
      the table of the header;
    - the facts: what the table is ([Directives], [HeaderFacts]) and what
      the four macros expand to at their use sites ([UseSites]). *)

From Stdlib Require Import String Ascii List Bool Arith Lia.
Import ListNotations.

Open Scope string_scope.
Open Scope list_scope.

(* ------------------------------------------------------------------ *)
(** ** Strings *)

Module Text.

Definition is_blank (c : ascii) : bool :=
  let n := nat_of_ascii c in Nat.eqb n 32 || Nat.eqb n 9.

(** Letters, digits, underscore; the dollar sign counts as a letter, as
    it does for the GNU preprocessor. *)
Definition is_ident_char (c : ascii) : bool :=
  let n := nat_of_ascii c in
  (Nat.leb 65 n && Nat.leb n 90) || (Nat.leb 97 n && Nat.leb n 122)
  || (Nat.leb 48 n && Nat.leb n 57) || Nat.eqb n 95 || Nat.eqb n 36.

Fixpoint ltrim (s : string) : string :=
  match s with
  | EmptyString => EmptyString
  | String c r => if is_blank c then ltrim r else s
  end.

Fixpoint rtrim (s : string) : string :=
  match s with
  | EmptyString => EmptyString
  | String c r =>
      match rtrim r with
      | EmptyString => if is_blank c then EmptyString else String c EmptyString
      | r' => String c r'
      end
  end.

Definition trim (s : string) : string := ltrim (rtrim s).

Fixpoint join (sep : string) (l : list string) : string :=
  match l with
  | [] => EmptyString
  | [x] => x
  | x :: r => x ++ sep ++ join sep r
  end.

(** [infix p s]: [p] occurs in [s] as a run of consecutive characters. *)
Fixpoint infix (p s : string) : bool :=
  prefix p s ||
  match s with
  | EmptyString => false
  | String _ r => infix p r
  end.

(** Longest run of identifier characters at the head, and the rest. *)
Fixpoint span_ident (s : string) : string * string :=
  match s with
  | EmptyString => (EmptyString, EmptyString)
  | String c r =>
      if is_ident_char c
      then let '(i, t) := span_ident r in (String c i, t)
      else (EmptyString, s)
  end.

(** Text up to the first occurrence of [stop], and the text after it. *)
Fixpoint break_at (stop : ascii) (s : string) : option (string * string) :=
  match s with
  | EmptyString => None
  | String c r =>
      if Ascii.eqb c stop then Some (EmptyString, r)
      else match break_at stop r with
           | Some (a, b) => Some (String c a, b)
           | None => None
           end
  end.

(** The string without its last character, and that character. *)
Fixpoint unsnoc (s : string) : option (string * ascii) :=
  match s with
  | EmptyString => None
  | String c r =>
      match unsnoc r with
      | None => Some (EmptyString, c)
      | Some (i, l) => Some (String c i, l)
      end
  end.

Fixpoint drop_prefix (p s : string) : option string :=
  match p, s with
  | EmptyString, _ => Some s
  | String a p', String b s' => if Ascii.eqb a b then drop_prefix p' s' else None
  | String _ _, EmptyString => None
  end.

(** Parentheses left open after [s], read with [d] of them open; [None]
    when [s] closes one that is not open. *)
Fixpoint balance (d : nat) (s : string) : option nat :=
  match s with
  | EmptyString => Some d
  | String c r =>
      if Ascii.eqb c "(" then balance (S d) r
      else if Ascii.eqb c ")" then
        match d with
        | O => None
        | S d' => balance d' r
        end
      else balance d r
  end.

Definition balanced (s : string) : bool :=
  match balance 0 s with
  | Some O => true
  | _ => false
  end.

End Text.

(* ------------------------------------------------------------------ *)
(** ** The preprocessor *)

(** The part of the C preprocessor that reads lines: [#ifdef], [#else],
    [#endif], [#define] of a function-like macro, and a use site that
    fills a line.  The expansion of this module, [expand], is the coarse
    one: it takes each argument as a spelling, without the blanks around
    it, and puts it in the place of its parameter; [__VA_ARGS__] stands
    for everything after the last named argument, commas included.  It
    serves for what does not depend on the text of the arguments (which
    macro is chosen, how many arguments it wants, how the directive
    begins).  What becomes of the arguments themselves (their own macro
    expansion, the rescan) is the matter of [Tokens] below. *)

Module Cpp.
Import Text.

(** A function-like macro: [#define name(params[, ...]) body]. *)
Record macro := Macro {
  m_name : string;
  m_params : list string;
  m_variadic : bool;
  m_body : string
}.

(** The lines the model interprets.  Any other directive is kept as
    [Plain] text. *)
Inductive line :=
| Ifdef (name : string)
| Else
| Endif
| Define (m : macro)
| Invoke (name : string) (args : string)
| Plain (text : string).

(** *** Reading a line *)

(** Splits at the commas that are outside every pair of parentheses.
    [d] is the number of parentheses open so far. *)
Fixpoint split_top (d : nat) (s : string) : list string :=
  match s with
  | EmptyString => [EmptyString]
  | String c r =>
      if Ascii.eqb c "," && Nat.eqb d 0 then EmptyString :: split_top 0 r
      else
        let d' := if Ascii.eqb c "(" then S d
                  else if Ascii.eqb c ")" then pred d else d in
        match split_top d' r with
        | h :: t => String c h :: t
        | [] => [String c EmptyString]
        end
  end.

(** The arguments of an invocation, as written between its parentheses. *)
Definition collect_args (text : string) : list string := split_top 0 text.

Definition is_ellipsis (s : string) : bool := String.eqb s "...".

Definition parse_define (rest : string) : line :=
  let '(name, after) := span_ident (ltrim rest) in
  match after with
  | String "(" tl =>
      match break_at ")" tl with
      | Some (ps, body) =>
          let names := map trim (split_top 0 ps) in
          Define {| m_name := name;
                    m_params := filter (fun p => negb (is_ellipsis p)) names;
                    m_variadic := existsb is_ellipsis names;
                    m_body := trim body |}
      | None => Plain rest
      end
  | _ => Plain rest
  end.

Definition parse_invoke (s : string) : line :=
  let '(name, after) := span_ident s in
  match name, after with
  | String _ _, String "(" tl =>
      match unsnoc tl with
      | Some (args, ")"%char) => Invoke name args
      | _ => Plain s
      end
  | _, _ => Plain s
  end.

Definition parse_line (raw : string) : line :=
  let s := trim raw in
  match drop_prefix "#ifdef" s with
  | Some r => Ifdef (trim r)
  | None =>
  match drop_prefix "#else" s with
  | Some _ => Else
  | None =>
  match drop_prefix "#endif" s with
  | Some _ => Endif
  | None =>
  match drop_prefix "#define" s with
  | Some r => parse_define r
  | None => parse_invoke s
  end end end end.

(** *** Expanding an invocation *)

Definition va_args : string := "__VA_ARGS__".

(** The text a variadic parameter list stands for: the remaining
    arguments with the commas that separated them. *)
Definition va_text (rest : list string) : string := trim (join "," rest).

(** Parameters bound to the arguments' spellings.  [None]: the invocation
    has too few (or, for a macro without [...], too many) arguments. *)
Definition bind (m : macro) (args : list string) : option (list (string * string)) :=
  let n := List.length (m_params m) in
  if m_variadic m then
    if Nat.leb n (List.length args)
    then Some (combine (m_params m) (map trim (firstn n args))
               ++ [(va_args, va_text (skipn n args))])
    else None
  else
    if Nat.eqb n (List.length args)
    then Some (combine (m_params m) (map trim args))
    else None.

Fixpoint assoc (k : string) (env : list (string * string)) : option string :=
  match env with
  | [] => None
  | (k', v) :: r => if String.eqb k k' then Some v else assoc k r
  end.

(** The replacement list cut into identifiers and the characters between
    them. *)
Inductive token :=
| Ident (s : string)
| Other (c : ascii).

Fixpoint tokenize_from (fuel : nat) (s : string) : list token :=
  match fuel with
  | O => []
  | S fuel' =>
      match s with
      | EmptyString => []
      | String c r =>
          if is_ident_char c
          then let '(i, t) := span_ident s in Ident i :: tokenize_from fuel' t
          else Other c :: tokenize_from fuel' r
      end
  end.

(** Every step consumes a character, so the length is fuel enough. *)
Definition tokenize (s : string) : list token :=
  tokenize_from (String.length s) s.

Definition instantiate (env : list (string * string)) (t : token) : string :=
  match t with
  | Ident i => match assoc i env with Some v => v | None => i end
  | Other c => String c EmptyString
  end.

Definition substitute (env : list (string * string)) (body : string) : string :=
  String.concat EmptyString (map (instantiate env) (tokenize body)).

Definition expand (m : macro) (args : list string) : option string :=
  match bind m args with
  | Some env => Some (substitute env (m_body m))
  | None => None
  end.

(** *** Running over a translation unit *)

(** [conds]: one entry per open [#ifdef], true when its current branch is
    taken.  [table]: the macros defined so far, latest first.  [out]: the
    lines written so far; [None] is a line the preprocessor rejects. *)
Record state := State {
  conds : list bool;
  table : list macro;
  out : list (option string)
}.

Definition active (st : state) : bool := forallb (fun b => b) (conds st).

Definition lookup (name : string) (tbl : list macro) : option macro :=
  find (fun m => String.eqb (m_name m) name) tbl.

Definition is_defined (predefined : list string) (tbl : list macro) (name : string) : bool :=
  existsb (String.eqb name) predefined
  || match lookup name tbl with Some _ => true | None => false end.

(** An invocation of a name that is not a macro is ordinary text. *)
Definition invoke (tbl : list macro) (name args : string) : option string :=
  match lookup name tbl with
  | Some m => expand m (collect_args args)
  | None => Some (name ++ "(" ++ args ++ ")")%string
  end.



Definition step (predefined : list string) (st : state) (l : line) : state :=
  match l with
  | Ifdef n =>
      {| conds := is_defined predefined (table st) n :: conds st;
         table := table st; out := out st |}
  | Else =>
      match conds st with
      | c :: r => {| conds := negb c :: r; table := table st; out := out st |}
      | [] => st
      end
  | Endif => {| conds := tl (conds st); table := table st; out := out st |}
  | Define m =>
      if active st
      then {| conds := conds st; table := m :: table st; out := out st |}
      else st
  | Invoke n a =>
      if active st
      then {| conds := conds st; table := table st;
              out := out st ++ [invoke (table st) n a] |}
      else st
  | Plain t =>
      if active st
      then {| conds := conds st; table := table st; out := out st ++ [Some t] |}
      else st
  end.

Definition initial : state := {| conds := []; table := []; out := [] |}.

Definition run (predefined : list string) (st : state) (ls : list line) : state :=
  fold_left (step predefined) ls st.

Definition preprocess (predefined : list string) (ls : list line) : state :=
  run predefined initial ls.

End Cpp.

(* ------------------------------------------------------------------ *)
(** ** The header *)

Module MacrosH.
Import Text Cpp.

(** include/macros.h, line by line. *)
Definition macros_h : list string := [
  "#ifdef OMPGPU";
  EmptyString;
  "#define GPU_DATA_ALLOC(...) !$omp target data map(alloc: __VA_ARGS__)";
  "#define GPU_DATA_PRESENT_SIMPLE(...) !$omp target enter data map(present: __VA_ARGS__)";
  "#define GPU_DATA_PRESENT_IF(condition_arg, ...) !$omp target enter data if(condition_arg) map(present: __VA_ARGS__)";
  "#define GPU_DATA_PRESENT_COPY(condition_arg, copyin_arg, copy_arg, ...) !$omp target enter data if(condition_arg) map(present: __VA_ARGS__) map(to: copyin_arg) map(tofrom: copy_arg)";
  EmptyString;
  "#else";
  EmptyString;
  "#define GPU_DATA_ALLOC(...) !$acc enter data create(__VA_ARGS__)";
  "#define GPU_DATA_PRESENT_SIMPLE(...) !$acc data present(__VA_ARGS__)";
  "#define GPU_DATA_PRESENT_IF(condition_arg, ...) !$acc data present(__VA_ARGS__) if(condition_arg)";
  "#define GPU_DATA_PRESENT_COPY(condition_arg, copyin_arg, copy_arg, ...) !$acc data present(__VA_ARGS__) copyin(copyin_arg) copy(copy_arg) if(condition_arg)";
  EmptyString;
  "#endif"
].

Definition header : list line := map parse_line macros_h.

(** The compile-time switch: [OMPGPU] defined on the command line, or
    not. *)
Inductive mode := Offload | Accelerator.

Definition predefined (md : mode) : list string :=
  match md with
  | Offload => ["OMPGPU"]
  | Accelerator => []
  end.

Definition mode_of (names : list string) : mode :=
  if existsb (String.eqb "OMPGPU") names then Offload else Accelerator.

(** The macros in force after the header, for any set of predefined
    names, and for the two modes. *)
Definition header_table (names : list string) : list macro :=
  table (preprocess names header).

Definition macro_table (md : mode) : list macro :=
  header_table (predefined md).

Inductive operation :=
| Allocate
| PresentSimple
| PresentConditional
| PresentWithCopy.

Definition macro_name (op : operation) : string :=
  match op with
  | Allocate => "GPU_DATA_ALLOC"
  | PresentSimple => "GPU_DATA_PRESENT_SIMPLE"
  | PresentConditional => "GPU_DATA_PRESENT_IF"
  | PresentWithCopy => "GPU_DATA_PRESENT_COPY"
  end.

(** Number of named parameters in front of the [...]. *)
Definition arity (op : operation) : nat :=
  match op with
  | Allocate | PresentSimple => 0
  | PresentConditional => 1
  | PresentWithCopy => 3
  end.

(** Expansion of an operation applied to arguments already told apart,
    after the header was read with [names] predefined. *)
Definition expansion_under (names : list string) (op : operation)
    (args : list string) : option string :=
  match lookup (macro_name op) (header_table names) with
  | Some m => expand m args
  | None => None
  end.

Definition expansion (md : mode) (op : operation) (args : list string) : option string :=
  expansion_under (predefined md) op args.

(** Expansion of a use site, from the text between its parentheses. *)
Definition call (md : mode) (op : operation) (text : string) : option string :=
  invoke (macro_table md) (macro_name op) text.



(** *** Vocabulary of the two directive dialects *)




(** A data construct either opens a region that ends with the construct
    (structured) or only enters the data environment (unstructured). *)
Inductive construct := Structured | Unstructured.

Definition construct_of (text : string) : option construct :=
  if prefix "!$omp target enter data " text then Some Unstructured
  else if prefix "!$omp target data " text then Some Structured
  else if prefix "!$acc enter data " text then Some Unstructured
  else if prefix "!$acc data " text then Some Structured
  else None.

(** The replacement lists of the header with their parameters filled in:
    argument [i] is spelled without the blanks around it, the variadic
    part is what follows the named arguments.  [expansion_directive]
    below shows that this is what [expansion] computes. *)
Definition directive (md : mode) (op : operation) (args : list string) : string :=
  let arg i := trim (nth i args EmptyString) in
  let va := va_text (skipn (arity op) args) in
  match md, op with
  | Offload, Allocate =>
      "!$omp target data map(alloc: " ++ va ++ ")"
  | Offload, PresentSimple =>
      "!$omp target enter data map(present: " ++ va ++ ")"
  | Offload, PresentConditional =>
      "!$omp target enter data if(" ++ arg 0 ++ ") map(present: " ++ va ++ ")"
  | Offload, PresentWithCopy =>
      "!$omp target enter data if(" ++ arg 0 ++ ") map(present: " ++ va
      ++ ") map(to: " ++ arg 1 ++ ") map(tofrom: " ++ arg 2 ++ ")"
  | Accelerator, Allocate =>
      "!$acc enter data create(" ++ va ++ ")"
  | Accelerator, PresentSimple =>
      "!$acc data present(" ++ va ++ ")"
  | Accelerator, PresentConditional =>
      "!$acc data present(" ++ va ++ ") if(" ++ arg 0 ++ ")"
  | Accelerator, PresentWithCopy =>
      "!$acc data present(" ++ va ++ ") copyin(" ++ arg 1 ++ ") copy(" ++ arg 2
      ++ ") if(" ++ arg 0 ++ ")"
  end.

End MacrosH.

(* ------------------------------------------------------------------ *)
(** ** Expansion on preprocessing tokens *)

(** Macro expansion proper works on preprocessing tokens, not on text: by
    the time a use site is expanded, comments and blanks are gone and a
    character or string constant is one token.  This module follows the
    algorithm of the C standard (6.10.3) in the formulation that carries,
    with every token, the names of the macros it must no longer expand
    to: an argument is completely macro-expanded before it replaces its
    parameter, the result of a replacement is scanned again together with
    the tokens that follow, and a macro is not expanded inside its own
    expansion.  The operators [#] and [##] are left out; the header has
    neither. *)

Module Tokens.
Import Text Cpp MacrosH.

(** An identifier, or any other token (number, constant, punctuator) by
    its spelling. *)
Inductive ptoken :=
| Id (s : string)
| Sym (s : string).

Definition ptoken_eqb (a b : ptoken) : bool :=
  match a, b with
  | Id x, Id y => String.eqb x y
  | Sym x, Sym y => String.eqb x y
  | _, _ => false
  end.

Definition is_sym (c : string) (t : ptoken) : bool :=
  match t with
  | Sym s => String.eqb s c
  | Id _ => false
  end.

Fixpoint tally (t : ptoken) (ts : list ptoken) : nat :=
  match ts with
  | [] => 0
  | x :: r => (if ptoken_eqb t x then 1 else 0) + tally t r
  end.

(** A token with its hide set. *)
Definition painted : Type := ptoken * list string.

Definition fresh (ts : list ptoken) : list painted := map (fun t => (t, [])) ts.

Definition erase (ps : list painted) : list ptoken := map fst ps.

Definition paint (hs : list string) (ps : list painted) : list painted :=
  map (fun p => (fst p, hs ++ snd p)) ps.

Definition hidden (n : string) (hs : list string) : bool :=
  existsb (String.eqb n) hs.

Definition both (hs hs' : list string) : list string :=
  filter (fun n => hidden n hs') hs.

(** An object-like macro has no parameter list; a function-like one has
    its named parameters and says whether it ends in [...]. *)
Record pmacro := {
  pm_name : string;
  pm_params : option (list string * bool);
  pm_body : list ptoken
}.

Definition find_macro (n : string) (env : list pmacro) : option pmacro :=
  find (fun m => String.eqb (pm_name m) n) env.

(** *** The arguments of an invocation *)

Definition push (p : painted)
    (r : option (list (list painted) * list string * list painted)) :=
  match r with
  | Some (a :: args, hs, rest) => Some ((p :: a) :: args, hs, rest)
  | Some ([], hs, rest) => Some ([[p]], hs, rest)
  | None => None
  end.

Definition new_arg (r : option (list (list painted) * list string * list painted)) :=
  match r with
  | Some (args, hs, rest) => Some ([] :: args, hs, rest)
  | None => None
  end.

(** Reads the tokens after the opening parenthesis: the arguments, cut at
    the commas outside inner parentheses, the hide set of the closing
    parenthesis, and the tokens after it.  [None]: the parenthesis is
    never closed. *)
Fixpoint collect (d : nat) (ts : list painted)
  : option (list (list painted) * list string * list painted) :=
  match ts with
  | [] => None
  | p :: r =>
      if is_sym ")" (fst p) then
        match d with
        | O => Some ([[]], snd p, r)
        | S d' => push p (collect d' r)
        end
      else if is_sym "(" (fst p) then push p (collect (S d) r)
      else if is_sym "," (fst p) && Nat.eqb d 0 then new_arg (collect 0 r)
      else push p (collect d r)
  end.

(** The variable arguments, with the commas that separated them. *)
Fixpoint join_commas (args : list (list painted)) : list painted :=
  match args with
  | [] => []
  | [a] => a
  | a :: r => a ++ (Sym ",", []) :: join_commas r
  end.

(** Parameters bound to arguments.  A macro ending in [...] takes its
    named arguments and whatever follows, possibly nothing; [None] is the
    error of a wrong number of arguments. *)
Definition bind_args (ps : list string) (variadic : bool) (args : list (list painted))
  : option (list (string * list painted)) :=
  let n := List.length ps in
  if variadic then
    if Nat.leb n (List.length args)
    then Some (combine ps (firstn n args)
               ++ [(va_args, join_commas (skipn n args))])
    else None
  else
    match ps, args with
    | [], [[]] => Some []
    | _, _ => if Nat.eqb n (List.length args) then Some (combine ps args) else None
    end.

Fixpoint actual (p : string) (acts : list (string * list painted))
  : option (list painted) :=
  match acts with
  | [] => None
  | (k, v) :: r => if String.eqb p k then Some v else actual p r
  end.

(** *** Replacement and rescanning *)

(** The replacement list with every parameter replaced by its argument,
    the argument first expanded on its own by [ex]. *)
Fixpoint subst (ex : list painted -> option (list painted))
    (acts : list (string * list painted)) (body : list ptoken)
  : option (list painted) :=
  match body with
  | [] => Some []
  | t :: b =>
      match subst ex acts b with
      | None => None
      | Some o =>
          match t with
          | Id p =>
              match actual p acts with
              | Some a =>
                  match ex a with
                  | Some e => Some (e ++ o)
                  | None => None
                  end
              | None => Some ((t, []) :: o)
              end
          | Sym _ => Some ((t, []) :: o)
          end
      end
  end.

(** Full expansion of a token sequence.  Every step takes one unit of
    fuel; [None] is a preprocessing error or the end of the fuel. *)
Fixpoint expand_tokens (fuel : nat) (env : list pmacro) (ts : list painted)
  : option (list painted) :=
  match ts with
  | [] => Some []
  | p :: r =>
      match fuel with
      | O => None
      | S f =>
          let keep := match expand_tokens f env r with
                      | Some o => Some (p :: o)
                      | None => None
                      end in
          match fst p with
          | Sym _ => keep
          | Id n =>
              if hidden n (snd p) then keep
              else
                match find_macro n env with
                | None => keep
                | Some m =>
                    match pm_params m with
                    | None =>
                        expand_tokens f env
                          (paint (n :: snd p) (fresh (pm_body m)) ++ r)
                    | Some (ps, variadic) =>
                        match r with
                        | q :: r' =>
                            if is_sym "(" (fst q) then
                              match collect 0 r' with
                              | None => None
                              | Some (args, hs', rest) =>
                                  match bind_args ps variadic args with
                                  | None => None
                                  | Some acts =>
                                      match subst (expand_tokens f env) acts (pm_body m) with
                                      | None => None
                                      | Some os =>
                                          expand_tokens f env
                                            (paint (n :: both (snd p) hs') os ++ rest)
                                      end
                                  end
                              end
                            else keep
                        | [] => keep
                        end
                    end
                end
          end
      end
  end.

(** [ts] expands to [out]: every amount of fuel from some point on gives
    [out]. *)
Definition expands_to (env : list pmacro) (ts out : list ptoken) : Prop :=
  exists f0, forall f, f0 <= f ->
    option_map erase (expand_tokens f env (fresh ts)) = Some out.

(** No token of [ps] can still be expanded: each identifier is hidden or
    names no macro. *)
Definition quiet (env : list pmacro) (ps : list painted) : bool :=
  forallb (fun p => match fst p with
                    | Id n => hidden n (snd p)
                              || match find_macro n env with
                                 | None => true
                                 | Some _ => false
                                 end
                    | Sym _ => true
                    end) ps.

(** The argument [a], expanded on its own, comes to rest as [e]. *)
Definition settled (env : list pmacro) (a e : list ptoken) : Prop :=
  exists f ep,
    expand_tokens f env (fresh a) = Some ep
    /\ quiet env ep = true
    /\ erase ep = e.

(** *** The header's macros as token macros *)

(** The replacement lists of the header hold identifiers, blanks and the
    one-character punctuators [!], [(], [)] and [:] only; cutting them
    into identifiers and single characters is exact for them. *)
Definition body_tokens (body : string) : list ptoken :=
  flat_map (fun t => match t with
                     | Ident i => [Id i]
                     | Other c => if is_blank c then [] else [Sym (String c EmptyString)]
                     end) (tokenize body).

Definition of_macro (m : macro) : pmacro :=
  {| pm_name := m_name m;
     pm_params := Some (m_params m, m_variadic m);
     pm_body := body_tokens (m_body m) |}.

Definition header_macros (md : mode) : list pmacro :=
  map of_macro (macro_table md).

(** [defs] are the macros in force before the header is read; the header
    tests only whether [OMPGPU] is among them. *)
Definition mode_under (defs : list pmacro) : mode :=
  mode_of (map pm_name defs).

Definition env_after (defs : list pmacro) : list pmacro :=
  map of_macro (header_table (map pm_name defs)) ++ defs.

(** The identifiers of the replacement lists that are not parameters:
    the words of the directives. *)
Definition directive_words (md : mode) : list string :=
  flat_map (fun m =>
    flat_map (fun t => match t with
                       | Id w => if existsb (String.eqb w) (va_args :: m_params m)
                                 then [] else [w]
                       | Sym _ => []
                       end) (body_tokens (m_body m))) (macro_table md).

(** None of these words was made a macro before the header. *)
Definition words_free (defs : list pmacro) : bool :=
  forallb (fun w => match find_macro w defs with
                    | None => true
                    | Some _ => false
                    end) (directive_words (mode_under defs)).

(** *** Use sites *)

(** Arguments written one after the other, with commas between them. *)
Definition data_list (args : list (list ptoken)) : list ptoken :=
  match args with
  | [] => []
  | a :: r => a ++ flat_map (fun x => Sym "," :: x) r
  end.

Definition use_site (name : string) (args : list (list ptoken)) : list ptoken :=
  Id name :: Sym "(" :: data_list args ++ [Sym ")"].

(** Parentheses open after [ts], read with [d] of them open; [None] when
    [ts] has a comma outside parentheses or closes one it did not open. *)
Fixpoint scan (d : nat) (ts : list ptoken) : option nat :=
  match ts with
  | [] => Some d
  | t :: r =>
      if is_sym ")" t then
        match d with
        | O => None
        | S d' => scan d' r
        end
      else if is_sym "(" t then scan (S d) r
      else if is_sym "," t && Nat.eqb d 0 then None
      else scan d r
  end.

(** What can be written as one argument: parentheses in pairs, no comma
    outside them.  The empty sequence is one. *)
Definition argument (ts : list ptoken) : bool :=
  match scan 0 ts with
  | Some O => true
  | _ => false
  end.

(** [p] stands at the head of [t]. *)
Fixpoint starts (p t : list ptoken) : bool :=
  match p, t with
  | [], _ => true
  | x :: p', y :: t' => ptoken_eqb x y && starts p' t'
  | _ :: _, [] => false
  end.

(** [p] stands in [t] as a run of consecutive tokens. *)
Fixpoint occurs (p t : list ptoken) : bool :=
  starts p t ||
  match t with
  | [] => false
  | _ :: t' => occurs p t'
  end.

(** *** The clauses and the directives, as tokens *)

Definition if_tokens (cond : list ptoken) : list ptoken :=
  [Id "if"; Sym "("] ++ cond ++ [Sym ")"].

Definition present_tokens (md : mode) (objs : list ptoken) : list ptoken :=
  match md with
  | Offload => [Id "map"; Sym "("; Id "present"; Sym ":"] ++ objs ++ [Sym ")"]
  | Accelerator => [Id "present"; Sym "("] ++ objs ++ [Sym ")"]
  end.

Definition copyin_tokens (md : mode) (vars : list ptoken) : list ptoken :=
  match md with
  | Offload => [Id "map"; Sym "("; Id "to"; Sym ":"] ++ vars ++ [Sym ")"]
  | Accelerator => [Id "copyin"; Sym "("] ++ vars ++ [Sym ")"]
  end.

Definition copy_tokens (md : mode) (vars : list ptoken) : list ptoken :=
  match md with
  | Offload => [Id "map"; Sym "("; Id "tofrom"; Sym ":"] ++ vars ++ [Sym ")"]
  | Accelerator => [Id "copy"; Sym "("] ++ vars ++ [Sym ")"]
  end.

Definition alloc_tokens (md : mode) (objs : list ptoken) : list ptoken :=
  match md with
  | Offload => [Id "map"; Sym "("; Id "alloc"; Sym ":"] ++ objs ++ [Sym ")"]
  | Accelerator => [Id "create"; Sym "("] ++ objs ++ [Sym ")"]
  end.

(** The clause that carries the data objects. *)
Definition data_tokens (md : mode) (op : operation) (objs : list ptoken) : list ptoken :=
  match op with
  | Allocate => alloc_tokens md objs
  | _ => present_tokens md objs
  end.

(** What each use site becomes, [es] being the named arguments and [ev]
    the data list as they come out of their own expansion.
    [use_site_expands] below derives it from [expand_tokens]. *)
Definition directive_tokens (md : mode) (op : operation)
    (es : list (list ptoken)) (ev : list ptoken) : list ptoken :=
  let e i := nth i es [] in
  match md, op with
  | Offload, Allocate =>
      [Sym "!"; Id "$omp"; Id "target"; Id "data"] ++ alloc_tokens Offload ev
  | Offload, PresentSimple =>
      [Sym "!"; Id "$omp"; Id "target"; Id "enter"; Id "data"]
      ++ present_tokens Offload ev
  | Offload, PresentConditional =>
      [Sym "!"; Id "$omp"; Id "target"; Id "enter"; Id "data"]
      ++ if_tokens (e 0) ++ present_tokens Offload ev
  | Offload, PresentWithCopy =>
      [Sym "!"; Id "$omp"; Id "target"; Id "enter"; Id "data"]
      ++ if_tokens (e 0) ++ present_tokens Offload ev
      ++ copyin_tokens Offload (e 1) ++ copy_tokens Offload (e 2)
  | Accelerator, Allocate =>
      [Sym "!"; Id "$acc"; Id "enter"; Id "data"] ++ alloc_tokens Accelerator ev
  | Accelerator, PresentSimple =>
      [Sym "!"; Id "$acc"; Id "data"] ++ present_tokens Accelerator ev
  | Accelerator, PresentConditional =>
      [Sym "!"; Id "$acc"; Id "data"] ++ present_tokens Accelerator ev
      ++ if_tokens (e 0)
  | Accelerator, PresentWithCopy =>
      [Sym "!"; Id "$acc"; Id "data"] ++ present_tokens Accelerator ev
      ++ copyin_tokens Accelerator (e 1) ++ copy_tokens Accelerator (e 2)
      ++ if_tokens (e 0)
  end.

Definition param_names (op : operation) : list string :=
  firstn (arity op) ["condition_arg"; "copyin_arg"; "copy_arg"].

(** The macro that the header defines for [op] in mode [md]: its
    replacement list is the directive with the parameters themselves in
    the places of the arguments.  [find_header_macro] below shows that
    this is what the header leaves in the table. *)
Definition header_macro (md : mode) (op : operation) : pmacro :=
  {| pm_name := macro_name op;
     pm_params := Some (param_names op, true);
     pm_body := directive_tokens md op
                  (map (fun p => [Id p]) (param_names op)) [Id va_args] |}.

(** Identifiers written as a list: separated by commas. *)
Definition ids (names : list string) : list ptoken :=
  data_list (map (fun n => [Id n]) names).

(** *** Sample environments *)

(** What [-DOMPGPU] defines. *)
Definition flag_OMPGPU : pmacro :=
  {| pm_name := "OMPGPU"; pm_params := None; pm_body := [Sym "1"] |}.

(** [-DOMPGPU -DN_MAX=100]. *)
Definition command_line : list pmacro :=
  [ flag_OMPGPU;
    {| pm_name := "N_MAX"; pm_params := None; pm_body := [Sym "100"] |} ].

(** The macros of EXAMPLE 3 in section 6.10.3.5 of the C standard that
    use neither [#] nor [##]. *)
Definition standard_example : list pmacro :=
  [ {| pm_name := "x"; pm_params := None; pm_body := [Sym "2"] |};
    {| pm_name := "f"; pm_params := Some (["a"], false);
       pm_body := [Id "f"; Sym "("; Id "x"; Sym "*"; Sym "("; Id "a"; Sym ")"; Sym ")"] |};
    {| pm_name := "g"; pm_params := None; pm_body := [Id "f"] |};
    {| pm_name := "z"; pm_params := None; pm_body := [Id "z"; Sym "["; Sym "0"; Sym "]"] |};
    {| pm_name := "h"; pm_params := None; pm_body := [Id "g"; Sym "("; Sym "~"] |};
    {| pm_name := "m"; pm_params := Some (["a"], false);
       pm_body := [Id "a"; Sym "("; Id "w"; Sym ")"] |};
    {| pm_name := "w"; pm_params := None; pm_body := [Sym "0"; Sym ","; Sym "1"] |};
    {| pm_name := "t"; pm_params := Some (["a"], false); pm_body := [Id "a"] |} ].

(** *** Two readings that the header does not bear out *)

(** The guard of [GPU_DATA_PRESENT_IF] would stand in the expansion
    token for token, whatever it is. *)
Definition guard_verbatim : Prop :=
  forall (defs : list pmacro) (cond : list ptoken) (objs : list (list ptoken)),
    words_free defs = true ->
    argument cond = true ->
    forallb argument objs = true ->
    objs <> [] ->
    exists t,
      expands_to (env_after defs)
                 (use_site (macro_name PresentConditional) (cond :: objs)) t
      /\ occurs (if_tokens cond) t = true.

(** The second and third arguments of [GPU_DATA_PRESENT_COPY] would be
    identifier lists of any length, written like the data list: with
    commas. *)
Definition copy_lists_of_any_length : Prop :=
  forall (defs : list pmacro) (cond : list ptoken) (copy_in copy_out : list string)
         (objs : list (list ptoken)),
    words_free defs = true ->
    argument cond = true ->
    forallb argument objs = true ->
    objs <> [] ->
    quiet (env_after defs)
          (fresh (cond ++ ids copy_in ++ ids copy_out ++ data_list objs)) = true ->
    exists t,
      expands_to (env_after defs)
                 (use_site (macro_name PresentWithCopy)
                           (cond :: ids copy_in :: ids copy_out :: objs)) t
      /\ occurs (copyin_tokens (mode_under defs) (ids copy_in)) t = true
      /\ occurs (copy_tokens (mode_under defs) (ids copy_out)) t = true.

End Tokens.

(* ------------------------------------------------------------------ *)
(** ** Facts about strings *)

Module TextFacts.
Import Text.
Local Open Scope string_scope.

Lemma prefix_refl_app (p s : string) : prefix p (p ++ s) = true.
Proof.
  induction p as [|c p IH]; simpl.
  - now destruct s.
  - destruct (ascii_dec c c) as [_|ne]; [exact IH | now elim ne].
Qed.

Lemma infix_here (p s : string) : prefix p s = true -> infix p s = true.
Proof. intros H. destruct s; cbn [infix]; rewrite H; reflexivity. Qed.

Lemma infix_later (p : string) (c : ascii) (s : string) :
  infix p s = true -> infix p (String c s) = true.
Proof. intros H. cbn [infix]. rewrite H. apply orb_true_r. Qed.

Lemma infix_app (p a b : string) : infix p (a ++ p ++ b) = true.
Proof.
  induction a as [|c a IH]; cbn [append].
  - apply infix_here, prefix_refl_app.
  - apply infix_later, IH.
Qed.


Lemma prefix_empty (s : string) : prefix EmptyString s = true.
Proof. now destruct s. Qed.

Lemma prefix_cons (c : ascii) (p s : string) :
  prefix (String c p) (String c s) = prefix p s.
Proof. simpl. destruct (ascii_dec c c) as [_|ne]; [reflexivity | now elim ne]. Qed.

Lemma prefix_app_same (x p s : string) : prefix (x ++ p) (x ++ s) = prefix p s.
Proof.
  induction x as [|c x IH]; cbn [append]; [reflexivity|].
  now rewrite prefix_cons.
Qed.

(** [p] is at the head of the text: compare it character by character,
    and symbolic part by symbolic part. *)
Ltac prefix_here :=
  cbn [append];
  repeat (rewrite prefix_cons || rewrite prefix_app_same);
  apply prefix_empty.


End TextFacts.

(* ------------------------------------------------------------------ *)
(** ** Facts about the preprocessor *)

Module CppFacts.
Import Text Cpp MacrosH TextFacts.




Lemma run_ifdef_first (names : list string) (name : string) (rest : list line) :
  run names initial (Ifdef name :: rest)
  = run names {| conds := [existsb (String.eqb name) names];
                 table := []; out := [] |} rest.
Proof.
  unfold run. cbn [fold_left step initial table conds out].
  unfold is_defined. cbn [lookup find]. now rewrite orb_false_r.
Qed.

(** Only [OMPGPU] among the predefined names matters to the header. *)
Lemma header_table_mode (names : list string) :
  header_table names = macro_table (mode_of names).
Proof.
  assert (Hh : header = Ifdef "OMPGPU" :: tl header) by (vm_compute; reflexivity).
  assert (Hrest : forall b ns,
    table (run ns {| conds := [b]; table := []; out := [] |} (tl header))
    = table (run [] {| conds := [b]; table := []; out := [] |} (tl header))).
  { intros b ns. destruct b; vm_compute; reflexivity. }
  unfold macro_table, header_table, preprocess.
  rewrite Hh, !run_ifdef_first, (Hrest _ names), (Hrest _ (predefined _)).
  unfold mode_of.
  destruct (existsb (String.eqb "OMPGPU") names); vm_compute; reflexivity.
Qed.

Example parse_define_line :
  parse_line "#define GPU_DATA_PRESENT_IF(condition_arg, ...) !$acc data present(__VA_ARGS__) if(condition_arg)"
  = Define {| m_name := "GPU_DATA_PRESENT_IF";
              m_params := ["condition_arg"];
              m_variadic := true;
              m_body := "!$acc data present(__VA_ARGS__) if(condition_arg)" |}.
Proof. vm_compute. reflexivity. Qed.

Example parse_use_site :
  parse_line "  GPU_DATA_PRESENT_COPY(n > 0, u, v, a, b)"
  = Invoke "GPU_DATA_PRESENT_COPY" "n > 0, u, v, a, b".
Proof. vm_compute. reflexivity. Qed.

Example unit_in_both_modes :
  let unit := header ++ map parse_line ["GPU_DATA_PRESENT_COPY(n > 0, u, v, a, b)"] in
  out (preprocess ["OMPGPU"] unit)
    = [Some EmptyString; Some EmptyString;
       Some "!$omp target enter data if(n > 0) map(present: a, b) map(to: u) map(tofrom: v)"]
  /\ out (preprocess [] unit)
    = [Some EmptyString; Some EmptyString;
       Some "!$acc data present(a, b) copyin(u) copy(v) if(n > 0)"].
Proof. split; vm_compute; reflexivity. Qed.

Example too_few_arguments :
  call Offload PresentWithCopy "n > 0, u" = None.
Proof. vm_compute. reflexivity. Qed.


Lemma lookup_macro (md : mode) (op : operation) :
  exists m, lookup (macro_name op) (macro_table md) = Some m
            /\ m_name m = macro_name op
            /\ List.length (m_params m) = arity op
            /\ m_variadic m = true.
Proof. destruct md, op; eexists; vm_compute; repeat split. Qed.

(** The expansion in closed form. *)
Lemma expansion_directive (md : mode) (op : operation) (args : list string) :
  arity op <= List.length args ->
  expansion md op args = Some (directive md op args).
Proof.
  intros H.
  destruct op; cbn [arity List.length] in H.
  - destruct md; reflexivity.
  - destruct md; reflexivity.
  - destruct args as [|c objs]; [cbn in H; lia|].
    destruct md; reflexivity.
  - destruct args as [|c [|ci [|co objs]]]; cbn in H; try lia.
    destruct md; reflexivity.
Qed.

Lemma expansion_too_few (md : mode) (op : operation) (args : list string) :
  List.length args < arity op -> expansion md op args = None.
Proof.
  intros H.
  destruct op; cbn [arity] in H; try lia.
  - destruct args as [|c objs]; [|cbn in H; lia].
    destruct md; reflexivity.
  - destruct args as [|c [|ci [|co objs]]]; cbn in H; try lia;
      destruct md; reflexivity.
Qed.

End CppFacts.

(* ------------------------------------------------------------------ *)
(** ** The expansions of the four macros *)

Module Directives.
Import Text Cpp MacrosH TextFacts CppFacts.



Lemma expansion_cases (md : mode) (op : operation) (args : list string) (t : string) :
  expansion md op args = Some t -> t = directive md op args.
Proof.
  intros H. destruct (le_lt_dec (arity op) (List.length args)) as [Hle|Hlt].
  - rewrite (expansion_directive md op args Hle) in H. now injection H as <-.
  - rewrite (expansion_too_few md op args Hlt) in H. discriminate.
Qed.









(** C10.  Under Offload [GPU_DATA_ALLOC] is the structured [target data]
    construct and the three present macros are the unstructured
    [target enter data]; under Accelerator it is the other way round:
    [enter data create] for [GPU_DATA_ALLOC], the structured
    [data present] for the three others. *)
Theorem structured_unstructured_swapped (md : mode) (op : operation)
    (args : list string) (t : string) :
  expansion md op args = Some t ->
  construct_of t
    = Some (match md, op with
            | Offload, Allocate => Structured
            | Offload, _ => Unstructured
            | Accelerator, Allocate => Unstructured
            | Accelerator, _ => Structured
            end)
  /\ prefix (match md, op with
             | Offload, Allocate => "!$omp target data "
             | Offload, _ => "!$omp target enter data "
             | Accelerator, Allocate => "!$acc enter data create("
             | Accelerator, _ => "!$acc data present("
             end) t = true.
Proof.
  intros H. apply expansion_cases in H. subst t.
  destruct md, op; (split; [reflexivity | cbv [directive]; prefix_here]).
Qed.

Lemma structured_unstructured_swapped_witness :
  expansion Accelerator Allocate ["a"] = Some "!$acc enter data create(a)"
  /\ construct_of "!$acc enter data create(a)" = Some Unstructured
  /\ prefix "!$acc enter data create(" "!$acc enter data create(a)" = true.
Proof.
  split; [vm_compute; reflexivity|].
  exact (structured_unstructured_swapped Accelerator Allocate ["a"]
           "!$acc enter data create(a)" eq_refl).
Defined.

End Directives.

(* ------------------------------------------------------------------ *)
(** ** Further properties of the header *)

Module HeaderFacts.
Import Text Cpp MacrosH TextFacts CppFacts.

(** A unit whose conditionals test [OMPGPU] only sees the predefined names
    through the mode they select. *)
Lemma run_mode (names : list string) (ls : list line) :
  forallb (fun l => match l with
                    | Ifdef n => String.eqb n "OMPGPU"
                    | _ => true
                    end) ls = true ->
  forall st, run names st ls = run (predefined (mode_of names)) st ls.
Proof.
  unfold run.
  induction ls as [|l ls IH]; intros H st; cbn [fold_left]; [reflexivity|].
  cbn [forallb] in H. apply andb_true_iff in H as [Hl H].
  assert (Hs : step names st l = step (predefined (mode_of names)) st l).
  { destruct l; try reflexivity.
    apply String.eqb_eq in Hl. subst name. cbn [step]. unfold is_defined, mode_of.
    destruct (existsb (String.eqb "OMPGPU") names); reflexivity. }
  rewrite Hs. now apply IH.
Qed.

Lemma preprocess_mode (names : list string) (ls : list line) :
  forallb (fun l => match l with
                    | Ifdef n => String.eqb n "OMPGPU"
                    | _ => true
                    end) ls = true ->
  preprocess names ls = preprocess (predefined (mode_of names)) ls.
Proof. intros H. unfold preprocess. now apply run_mode. Qed.

Lemma header_tests_OMPGPU :
  forallb (fun l => match l with
                    | Ifdef n => String.eqb n "OMPGPU"
                    | _ => true
                    end) header = true.
Proof. vm_compute. reflexivity. Qed.


(** X4.  The two branches of the header give every macro the same
    parameter list, so a use site that expands in one mode expands in the
    other. *)
Theorem signatures_agree (op : operation) :
  (exists m1 m2,
      lookup (macro_name op) (macro_table Offload) = Some m1
      /\ lookup (macro_name op) (macro_table Accelerator) = Some m2
      /\ m_params m1 = m_params m2
      /\ m_variadic m1 = m_variadic m2
      /\ List.length (m_params m1) = arity op)
  /\ (forall args,
        expansion Offload op args = None <-> expansion Accelerator op args = None).
Proof.
  split.
  - destruct op; do 2 eexists; vm_compute; repeat split.
  - intros args. destruct (le_lt_dec (arity op) (List.length args)) as [Hle|Hlt].
    + rewrite !(expansion_directive _ op args Hle). split; discriminate.
    + rewrite !(expansion_too_few _ op args Hlt). split; reflexivity.
Qed.




(** *** The macro table *)

Lemma lookup_app (n : string) (t1 t2 : list macro) :
  lookup n (t1 ++ t2)
  = match lookup n t1 with
    | Some m => Some m
    | None => lookup n t2
    end.
Proof.
  unfold lookup. induction t1 as [|x t1 IH]; cbn [find app]; [reflexivity|].
  now destruct (String.eqb (m_name x) n).
Qed.

Lemma lookup_app_same (n : string) (tbl : list macro) :
  lookup n (tbl ++ tbl) = lookup n tbl.
Proof. rewrite lookup_app. now destruct (lookup n tbl). Qed.

Lemma is_none_true (o : option macro) :
  match o with None => true | Some _ => false end = true -> o = None.
Proof. destruct o; [discriminate | reflexivity]. Qed.

Lemma replacement_lists_checked (md : mode) :
  forallb (fun m =>
    forallb (fun t => match t with
                      | Ident i => match lookup i (macro_table md) with
                                   | None => true
                                   | Some _ => false
                                   end
                      | Other _ => true
                      end) (tokenize (m_body m))) (macro_table md) = true.
Proof. destruct md; vm_compute; reflexivity. Qed.

(** X8.  No identifier of a replacement list, a parameter or a word of
    the directive, names a macro of the header: the four macros invoke
    neither one another nor themselves, and reading an expansion again
    for macros would leave the directive words as they are. *)
Theorem replacement_lists_name_no_macro (md : mode) (m : macro) (i : string) :
  In m (macro_table md) ->
  In (Ident i) (tokenize (m_body m)) ->
  lookup i (macro_table md) = None.
Proof.
  intros Hm Hi.
  pose proof (replacement_lists_checked md) as H.
  rewrite forallb_forall in H. specialize (H m Hm).
  rewrite forallb_forall in H. specialize (H (Ident i) Hi).
  exact (is_none_true _ H).
Qed.

Lemma replacement_lists_name_no_macro_witness :
  lookup "present" (macro_table Accelerator) = None.
Proof.
  apply (replacement_lists_name_no_macro Accelerator
           {| m_name := "GPU_DATA_PRESENT_SIMPLE"; m_params := [];
              m_variadic := true;
              m_body := "!$acc data present(__VA_ARGS__)" |}).
  - vm_compute. right. right. left. reflexivity.
  - vm_compute. do 5 right. left. reflexivity.
Defined.

(** X9.  The header has no include guard and needs none: read twice, it
    leaves no conditional open and every name looks up the same macro as
    after one reading. *)
Theorem include_twice (names : list string) (n : string) :
  conds (preprocess names (header ++ header)) = []
  /\ lookup n (table (preprocess names (header ++ header)))
     = lookup n (header_table names).
Proof.
  assert (Ht : forall md,
    preprocess (predefined md) (header ++ header)
    = {| conds := []; table := macro_table md ++ macro_table md;
         out := [Some EmptyString; Some EmptyString;
                 Some EmptyString; Some EmptyString] |}).
  { intros md. destruct md; vm_compute; reflexivity. }
  rewrite preprocess_mode
    by (rewrite forallb_app, header_tests_OMPGPU; reflexivity).
  rewrite Ht, header_table_mode. cbn [conds table].
  split; [reflexivity | apply lookup_app_same].
Qed.

(** *** Parentheses *)

Lemma balance_app (a b : string) :
  forall d, balance d (a ++ b)
            = match balance d a with
              | Some d' => balance d' b
              | None => None
              end.
Proof.
  induction a as [|c a IH]; intros d; cbn [append balance]; [reflexivity|].
  destruct (Ascii.eqb c "("); [apply IH|].
  destruct (Ascii.eqb c ")"); [|apply IH].
  destruct d; [reflexivity | apply IH].
Qed.

Lemma balance_shift (s : string) :
  forall a b k, balance a s = Some b -> balance (a + k) s = Some (b + k).
Proof.
  induction s as [|c s IH]; intros a b k H; cbn [balance] in *.
  - now injection H as <-.
  - destruct (Ascii.eqb c "("); [exact (IH (S a) b k H)|].
    destruct (Ascii.eqb c ")"); [|exact (IH a b k H)].
    destruct a as [|a']; [discriminate|]. exact (IH a' b k H).
Qed.

Lemma balanced_at (s : string) (d : nat) :
  balanced s = true -> balance d s = Some d.
Proof.
  unfold balanced. intros H.
  destruct (balance 0 s) as [[|n]|] eqn:E; try discriminate.
  exact (balance_shift s 0 0 d E).
Qed.

(** Reads a text made of literals and balanced parts. *)
Ltac read_balance :=
  repeat first [ rewrite balance_app
               | rewrite balanced_at by assumption
               | progress cbn [append balance Ascii.eqb Bool.eqb] ].

(** X13.  The replacement lists open and close their parentheses in
    pairs: when every argument, as spelled, and the data list have
    balanced parentheses, so has the expansion. *)
Theorem expansion_balanced (md : mode) (op : operation) (args : list string) (t : string) :
  expansion md op args = Some t ->
  forallb balanced (map trim (firstn (arity op) args)) = true ->
  balanced (va_text (skipn (arity op) args)) = true ->
  balanced t = true.
Proof.
  intros Ht Hn Hva.
  destruct (le_lt_dec (arity op) (List.length args)) as [Hle|Hlt];
    [|rewrite (expansion_too_few md op args Hlt) in Ht; discriminate].
  rewrite (expansion_directive md op args Hle) in Ht. injection Ht as <-.
  unfold balanced at 1.
  destruct op; cbn [arity] in *.
  - destruct md; cbn [directive arity]; read_balance; reflexivity.
  - destruct md; cbn [directive arity]; read_balance; reflexivity.
  - destruct args as [|c objs]; [cbn in Hle; lia|].
    cbn [firstn map forallb] in Hn. rewrite andb_true_r in Hn.
    destruct md; cbn [directive arity nth]; read_balance; reflexivity.
  - destruct args as [|c [|ci [|co objs]]]; cbn in Hle; try lia.
    cbn [firstn map forallb] in Hn. rewrite andb_true_r in Hn.
    apply andb_true_iff in Hn as [Hc Hn]. apply andb_true_iff in Hn as [Hi Ho].
    destruct md; cbn [directive arity nth]; read_balance; reflexivity.
Qed.

Lemma expansion_balanced_witness :
  balanced "!$omp target enter data if(f(x) > 0) map(present: a(1:n),b) map(to: u) map(tofrom: v(:))"
  = true.
Proof.
  exact (expansion_balanced Offload PresentWithCopy
           ["f(x) > 0"; "u"; "v(:)"; "a(1:n)"; "b"]
           "!$omp target enter data if(f(x) > 0) map(present: a(1:n),b) map(to: u) map(tofrom: v(:))"
           eq_refl eq_refl eq_refl).
Defined.

End HeaderFacts.

(* ------------------------------------------------------------------ *)
(** ** Facts about expansion on tokens *)

Module TokenFacts.
Import Text Cpp MacrosH Tokens CppFacts.

(* The tables are computed from the text of the header: unfold them last. *)
#[local] Strategy 1000 [header header_table macro_table header_macros directive_words].

(** *** Fuel *)

Lemma subst_mono (ex ex' : list painted -> option (list painted))
    (acts : list (string * list painted)) (body : list ptoken) :
  (forall a e, ex a = Some e -> ex' a = Some e) ->
  forall os, subst ex acts body = Some os -> subst ex' acts body = Some os.
Proof.
  intros Hex. induction body as [|t b IH]; intros os H; cbn [subst] in *; [exact H|].
  destruct (subst ex acts b) as [o|]; [|discriminate].
  rewrite (IH o eq_refl).
  destruct t as [p|c]; [|exact H].
  destruct (actual p acts) as [a|]; [|exact H].
  destruct (ex a) as [e|] eqn:E; [|discriminate].
  now rewrite (Hex a e E).
Qed.

Lemma expand_tokens_S (env : list pmacro) (f : nat) :
  forall ts out,
    expand_tokens f env ts = Some out -> expand_tokens (S f) env ts = Some out.
Proof.
  induction f as [|f IH]; intros ts out H.
  - destruct ts; [exact H | discriminate].
  - destruct ts as [|p r]; [exact H|].
    remember (S f) as g eqn:Eg.
    cbn [expand_tokens] in H. cbn [expand_tokens]. rewrite Eg in H. clear Eg.
    cbn [expand_tokens] in H.
    assert (Hkeep : forall o,
      match expand_tokens f env r with Some o' => Some (p :: o') | None => None end = Some o ->
      match expand_tokens g env r with Some o' => Some (p :: o') | None => None end = Some o).
    { intros o Ho. destruct (expand_tokens f env r) as [o'|] eqn:E; [|discriminate].
      now rewrite (IH r o' E). }
    destruct (fst p) as [n|c]; [|now apply Hkeep].
    destruct (hidden n (snd p)); [now apply Hkeep|].
    destruct (find_macro n env) as [m|]; [|now apply Hkeep].
    destruct (pm_params m) as [[ps variadic]|]; [|now apply IH].
    destruct r as [|q r']; [now apply Hkeep|].
    destruct (is_sym "(" (fst q)); [|now apply Hkeep].
    destruct (collect 0 r') as [[[args hs'] rest]|]; [|discriminate].
    destruct (bind_args ps variadic args) as [acts|]; [|discriminate].
    destruct (subst (expand_tokens f env) acts (pm_body m)) as [os|] eqn:E; [|discriminate].
    rewrite (subst_mono _ (expand_tokens g env) acts (pm_body m) (IH) os E).
    now apply IH.
Qed.

Lemma expand_tokens_le (env : list pmacro) (f f' : nat) (ts out : list painted) :
  f <= f' -> expand_tokens f env ts = Some out -> expand_tokens f' env ts = Some out.
Proof.
  intros Hle H. induction Hle as [|k _ IH]; [exact H | now apply expand_tokens_S].
Qed.

Lemma expands_to_intro (env : list pmacro) (f : nat) (ts : list ptoken) (out : list painted) :
  expand_tokens f env (fresh ts) = Some out -> expands_to env ts (erase out).
Proof.
  intros H. exists f. intros f' Hle.
  now rewrite (expand_tokens_le env f f' _ _ Hle H).
Qed.

Lemma expands_to_unique (env : list pmacro) (ts o1 o2 : list ptoken) :
  expands_to env ts o1 -> expands_to env ts o2 -> o1 = o2.
Proof.
  intros [f1 H1] [f2 H2].
  specialize (H1 (f1 + f2) ltac:(lia)). specialize (H2 (f1 + f2) ltac:(lia)).
  rewrite H1 in H2. now injection H2.
Qed.

(** *** Tokens at rest *)

Lemma hidden_app (n : string) (hs hs' : list string) :
  hidden n hs' = true -> hidden n (hs ++ hs') = true.
Proof. unfold hidden. rewrite existsb_app. intros ->. apply orb_true_r. Qed.

Lemma quiet_app (env : list pmacro) (a b : list painted) :
  quiet env (a ++ b) = quiet env a && quiet env b.
Proof. apply forallb_app. Qed.

Lemma quiet_paint (env : list pmacro) (hs : list string) (ps : list painted) :
  quiet env ps = true -> quiet env (paint hs ps) = true.
Proof.
  unfold quiet, paint. rewrite !forallb_forall. intros H p Hin.
  apply in_map_iff in Hin as [q [<- Hq]]. specialize (H q Hq). cbn [fst snd].
  destruct (fst q) as [n|c]; [|reflexivity].
  apply orb_true_iff in H as [H|H].
  - now rewrite (hidden_app n hs _ H).
  - rewrite H. apply orb_true_r.
Qed.

Lemma expand_quiet (env : list pmacro) (ps : list painted) :
  quiet env ps = true ->
  forall f rest out,
    expand_tokens f env rest = Some out ->
    expand_tokens (List.length ps + f) env (ps ++ rest) = Some (ps ++ out).
Proof.
  induction ps as [|p ps IH]; intros Hq f rest out H; [exact H|].
  cbn [quiet forallb] in Hq. apply andb_true_iff in Hq as [Hp Hq].
  cbn [List.length Nat.add app expand_tokens].
  rewrite (IH Hq f rest out H).
  destruct (fst p) as [n|c]; [|reflexivity].
  destruct (hidden n (snd p)); [reflexivity|].
  cbn [orb] in Hp. now destruct (find_macro n env).
Qed.

Lemma expand_quiet_all (env : list pmacro) (ps : list painted) (f : nat) :
  quiet env ps = true -> List.length ps <= f ->
  expand_tokens f env ps = Some ps.
Proof.
  intros Hq Hle.
  pose proof (expand_quiet env ps Hq 0 [] [] eq_refl) as H.
  rewrite Nat.add_0_r, !app_nil_r in H.
  exact (expand_tokens_le env _ f _ _ Hle H).
Qed.

Lemma erase_app (a b : list painted) : erase (a ++ b) = erase a ++ erase b.
Proof. apply map_app. Qed.

Lemma fresh_app (a b : list ptoken) : fresh (a ++ b) = fresh a ++ fresh b.
Proof. apply map_app. Qed.

Lemma erase_fresh (ts : list ptoken) : erase (fresh ts) = ts.
Proof. unfold erase, fresh. rewrite map_map. cbn [fst]. apply map_id. Qed.

Lemma erase_paint (hs : list string) (ps : list painted) : erase (paint hs ps) = erase ps.
Proof. unfold erase, paint. rewrite map_map. reflexivity. Qed.

Lemma paint_app (hs : list string) (a b : list painted) :
  paint hs (a ++ b) = paint hs a ++ paint hs b.
Proof. apply map_app. Qed.

(** *** Collecting arguments *)

Lemma fold_push (l x : list painted) (args : list (list painted))
    (hs : list string) (rest : list painted) :
  fold_right push (Some (x :: args, hs, rest)) l = Some ((l ++ x) :: args, hs, rest).
Proof.
  induction l as [|p l IH]; cbn [fold_right app]; [reflexivity|].
  now rewrite IH.
Qed.

(** A sequence that [scan] accepts goes whole into the argument being
    read. *)
Lemma collect_scan (a : list ptoken) :
  forall d d' X, scan d a = Some d' ->
    collect d (fresh a ++ X) = fold_right push (collect d' X) (fresh a).
Proof.
  induction a as [|t a IH]; intros d d' X H; cbn [scan fresh map app collect fold_right fst] in *.
  - now injection H as <-.
  - fold (fresh a).
    destruct (is_sym ")" t).
    + destruct d as [|k]; [discriminate|]. now rewrite (IH k d' X H).
    + destruct (is_sym "(" t); [now rewrite (IH (S d) d' X H)|].
      destruct (is_sym "," t && Nat.eqb d 0); [discriminate|].
      now rewrite (IH d d' X H).
Qed.

Lemma argument_scan (a : list ptoken) : argument a = true -> scan 0 a = Some 0.
Proof.
  unfold argument. destruct (scan 0 a) as [[|k]|]; intros H;
    [reflexivity | discriminate | discriminate].
Qed.

Lemma collect_arguments (r : list (list ptoken)) :
  forall a hs rest,
    argument a = true -> forallb argument r = true ->
    collect 0 (fresh (a ++ flat_map (fun x => Sym "," :: x) r) ++ (Sym ")", hs) :: rest)
    = Some (map fresh (a :: r), hs, rest).
Proof.
  induction r as [|b r IH]; intros a hs rest Ha Hr; cbn [flat_map map].
  - rewrite app_nil_r, (collect_scan a 0 0 _ (argument_scan a Ha)).
    cbn [collect fst snd is_sym String.eqb Ascii.eqb Bool.eqb].
    now rewrite fold_push, app_nil_r.
  - cbn [forallb] in Hr. apply andb_true_iff in Hr as [Hb Hr].
    rewrite fresh_app, <- app_assoc.
    rewrite (collect_scan a 0 0 _ (argument_scan a Ha)).
    change (fresh ((Sym "," :: b) ++ flat_map (fun x => Sym "," :: x) r))
      with ((Sym ",", []) :: fresh (b ++ flat_map (fun x => Sym "," :: x) r)).
    cbn [app collect fst snd is_sym String.eqb Ascii.eqb Bool.eqb andb Nat.eqb].
    rewrite (IH b hs rest Hb Hr). cbn [new_arg map].
    now rewrite fold_push, app_nil_r.
Qed.

(** What stands between the parentheses of a use site, read back as
    arguments. *)
Lemma collect_use_site (args : list (list ptoken)) (hs : list string)
    (rest : list painted) :
  forallb argument args = true ->
  collect 0 (fresh (data_list args) ++ (Sym ")", hs) :: rest)
  = Some (match args with
          | [] => [[]]
          | _ => map fresh args
          end, hs, rest).
Proof.
  destruct args as [|a r]; intros H.
  - reflexivity.
  - cbn [forallb] in H. apply andb_true_iff in H as [Ha Hr].
    now apply collect_arguments.
Qed.

Lemma join_commas_fresh (args : list (list ptoken)) :
  join_commas (map fresh args) = fresh (data_list args).
Proof.
  induction args as [|a [|b r] IH]; cbn [map join_commas data_list flat_map].
  - reflexivity.
  - now rewrite app_nil_r.
  - cbn [map join_commas data_list flat_map] in IH. rewrite IH.
    now rewrite !fresh_app.
Qed.

(** *** The table after the header *)

Lemma find_macro_app (n : string) (a b : list pmacro) :
  find_macro n (a ++ b)
  = match find_macro n a with
    | Some m => Some m
    | None => find_macro n b
    end.
Proof.
  unfold find_macro. induction a as [|x a IH]; cbn [find app]; [reflexivity|].
  now destruct (String.eqb (pm_name x) n).
Qed.

Lemma env_after_mode (defs : list pmacro) :
  env_after defs = header_macros (mode_under defs) ++ defs.
Proof.
  unfold env_after, header_macros, mode_under.
  rewrite header_table_mode. reflexivity.
Qed.

Lemma find_in_header (md : mode) (op : operation) :
  find_macro (macro_name op) (header_macros md) = Some (header_macro md op).
Proof. destruct md, op; vm_compute; reflexivity. Qed.

Lemma find_header_macro (defs : list pmacro) (op : operation) :
  find_macro (macro_name op) (env_after defs)
  = Some (header_macro (mode_under defs) op).
Proof. rewrite env_after_mode, find_macro_app, find_in_header. reflexivity. Qed.

Lemma words_not_in_header (md : mode) :
  forallb (fun w => match find_macro w (header_macros md) with
                    | None => true
                    | Some _ => false
                    end) (directive_words md) = true.
Proof. destruct md; vm_compute; reflexivity. Qed.

Lemma none_of_check (o : option pmacro) :
  match o with None => true | Some _ => false end = true -> o = None.
Proof. destruct o; [discriminate | reflexivity]. Qed.

Lemma find_word (defs : list pmacro) (w : string) :
  words_free defs = true ->
  In w (directive_words (mode_under defs)) ->
  find_macro w (env_after defs) = None.
Proof.
  intros Hf Hin. rewrite env_after_mode, find_macro_app.
  pose proof (words_not_in_header (mode_under defs)) as Hh.
  rewrite forallb_forall in Hh. specialize (Hh w Hin).
  unfold words_free in Hf. rewrite forallb_forall in Hf. specialize (Hf w Hin).
  rewrite (none_of_check _ Hh). exact (none_of_check _ Hf).
Qed.

(** *** One invocation *)

Lemma expand_invocation (env : list pmacro) (f : nat) (n : string)
    (hs hq : list string) (m : pmacro) (ps : list string) (variadic : bool)
    (r' : list painted) (args : list (list painted)) (hs' : list string)
    (rest : list painted) (acts : list (string * list painted))
    (os out : list painted) :
  hidden n hs = false ->
  find_macro n env = Some m ->
  pm_params m = Some (ps, variadic) ->
  collect 0 r' = Some (args, hs', rest) ->
  bind_args ps variadic args = Some acts ->
  subst (expand_tokens f env) acts (pm_body m) = Some os ->
  expand_tokens f env (paint (n :: both hs hs') os ++ rest) = Some out ->
  expand_tokens (S f) env ((Id n, hs) :: (Sym "(", hq) :: r') = Some out.
Proof.
  intros Hh Hm Hp Hc Hb Hs Ho.
  cbn [expand_tokens fst snd].
  rewrite Hh, Hm, Hp.
  cbn [is_sym String.eqb Ascii.eqb Bool.eqb].
  rewrite Hc, Hb, Hs. exact Ho.
Qed.

Lemma quiet_cons_sym (env : list pmacro) (c : string) (hs : list string)
    (ps : list painted) :
  quiet env ((Sym c, hs) :: ps) = quiet env ps.
Proof. reflexivity. Qed.

Lemma quiet_cons_word (env : list pmacro) (w : string) (hs : list string)
    (ps : list painted) :
  find_macro w env = None ->
  quiet env ((Id w, hs) :: ps) = quiet env ps.
Proof.
  intros H. cbn [quiet forallb fst snd]. rewrite H.
  now rewrite orb_true_r.
Qed.

Lemma length_fresh (ts : list ptoken) : List.length (fresh ts) = List.length ts.
Proof. apply length_map. Qed.

Lemma length_paint (hs : list string) (ps : list painted) :
  List.length (paint hs ps) = List.length ps.
Proof. apply length_map. Qed.

Ltac in_list := vm_compute; repeat (first [left; reflexivity | right]).

Lemma join_commas_collected (args : list (list ptoken)) :
  join_commas (match args with
               | [] => [[]]
               | _ => map fresh args
               end) = fresh (data_list args).
Proof. destruct args; [reflexivity | apply join_commas_fresh]. Qed.

Lemma fresh_use_site (name : string) (args : list (list ptoken)) (postp : list painted) :
  fresh (use_site name args) ++ postp
  = (Id name, []) :: (Sym "(", []) :: fresh (data_list args) ++ (Sym ")", []) :: postp.
Proof.
  unfold use_site. cbn [fresh map app]. fold (fresh (data_list args ++ [Sym ")"])).
  rewrite fresh_app, <- app_assoc. reflexivity.
Qed.

(** Closes one case of [invocation_step]: the macro and the mode are
    known, the arguments are named one by one. *)
Ltac quiet_tokens Hword :=
  repeat first
    [ rewrite quiet_cons_sym
    | rewrite quiet_cons_word by (apply Hword; in_list)
    | rewrite quiet_app ];
  repeat match goal with
         | Q : quiet _ ?e = true |- context [quiet _ ?e] => rewrite Q
         end;
  reflexivity.

Ltac count_tokens :=
  repeat first [ rewrite length_app | rewrite length_paint | progress cbn [List.length] ].

Ltac erase_tokens :=
  unfold erase;
  repeat first [ rewrite map_app | progress cbn [map fst] ];
  cbn [directive_tokens nth if_tokens present_tokens copyin_tokens copy_tokens
       alloc_tokens app];
  repeat rewrite <- app_assoc;
  reflexivity.

(** One use site, the arguments' own expansions being known: the macro
    is replaced by its directive and the tokens after the closing
    parenthesis are kept. *)
Lemma invocation_step (defs : list pmacro) (op : operation)
    (named objs : list (list ptoken)) (eps : list (list painted))
    (epv postp : list painted) (f : nat) :
  words_free defs = true ->
  List.length named = arity op ->
  forallb argument (named ++ objs) = true ->
  Forall2 (fun a ep => expand_tokens f (env_after defs) (fresh a) = Some ep
                       /\ quiet (env_after defs) ep = true) named eps ->
  expand_tokens f (env_after defs) (fresh (data_list objs)) = Some epv ->
  quiet (env_after defs) epv = true ->
  quiet (env_after defs) postp = true ->
  100 + List.length (concat eps) + List.length epv + List.length postp <= f ->
  exists os,
    expand_tokens (S f) (env_after defs)
      (fresh (use_site (macro_name op) (named ++ objs)) ++ postp)
    = Some (paint [macro_name op] os ++ postp)
    /\ erase os = directive_tokens (mode_under defs) op (map erase eps) (erase epv).
Proof.
  intros Hw Hn Ha Hargs Hv Qv Qp Hf.
  pose proof (find_header_macro defs op) as Hfind.
  assert (Hword : forall w, In w (directive_words (mode_under defs)) ->
                            find_macro w (env_after defs) = None).
  { intros w Hin. exact (find_word defs w Hw Hin). }
  rewrite fresh_use_site.
  pose proof (collect_use_site (named ++ objs) [] postp Ha) as Hcol.
  destruct (mode_under defs); destruct op; cbn [arity] in Hn.
  all: repeat match goal with
       | H : List.length ?l = _ |- _ =>
           is_var l; destruct l; cbn [List.length] in H; try discriminate H;
           try (injection H as H)
       end.
  all: repeat match goal with
       | H : Forall2 _ _ _ |- _ => inversion H; subst; clear H
       end.
  all: repeat match goal with
       | H : _ /\ _ |- _ => destruct H
       end.
  all: cbn [app concat] in *.
  all: eexists; split;
    [ eapply expand_invocation;
      [ reflexivity
      | exact Hfind
      | reflexivity
      | exact Hcol
      | cbn [param_names arity firstn bind_args List.length map Nat.leb combine skipn app];
        rewrite ?join_commas_collected, ?join_commas_fresh; reflexivity
      | cbn [header_macro pm_body directive_tokens param_names arity firstn map nth
             if_tokens present_tokens copyin_tokens copy_tokens alloc_tokens app];
        cbn [subst actual String.eqb Ascii.eqb Bool.eqb va_args];
        repeat match goal with
               | E : expand_tokens _ _ ?a = Some _ |- context [expand_tokens _ _ ?a] =>
                   rewrite E
               end;
        reflexivity
      | apply expand_quiet_all;
        [ rewrite quiet_app, Qp, andb_true_r; apply quiet_paint; quiet_tokens Hword
        | count_tokens; rewrite ?length_app in Hf; lia ] ]
    | erase_tokens ].
Qed.

(** *** A use site among other tokens *)

Lemma settled_le (env : list pmacro) (named : list (list ptoken))
    (es : list (list ptoken)) :
  Forall2 (settled env) named es ->
  exists f eps,
    (forall f', f <= f' ->
       Forall2 (fun a ep => expand_tokens f' env (fresh a) = Some ep
                            /\ quiet env ep = true) named eps)
    /\ map erase eps = es.
Proof.
  induction 1 as [|a e named es (fa & ep & Ha & Qa & Ea) _ (f & eps & IH & Es)].
  - exists 0, []. split; [constructor | reflexivity].
  - exists (fa + f), (ep :: eps). split.
    + intros f' Hle. constructor.
      * split; [|exact Qa].
        apply (expand_tokens_le env fa f'); [lia | exact Ha].
      * apply IH. lia.
    + cbn [map]. now rewrite Ea, Es.
Qed.

Lemma quiet_settled (env : list pmacro) (a : list ptoken) :
  quiet env (fresh a) = true -> settled env a a.
Proof.
  intros Q. exists (List.length (fresh a)), (fresh a).
  split; [|split].
  - now apply expand_quiet_all.
  - exact Q.
  - apply erase_fresh.
Qed.

(** A use site expands where it stands. *)
Lemma use_site_expands (defs : list pmacro) (op : operation)
    (named objs es : list (list ptoken)) (ev pre post : list ptoken) :
  words_free defs = true ->
  List.length named = arity op ->
  forallb argument (named ++ objs) = true ->
  Forall2 (settled (env_after defs)) named es ->
  settled (env_after defs) (data_list objs) ev ->
  quiet (env_after defs) (fresh pre) = true ->
  quiet (env_after defs) (fresh post) = true ->
  expands_to (env_after defs)
    (pre ++ use_site (macro_name op) (named ++ objs) ++ post)
    (pre ++ directive_tokens (mode_under defs) op es ev ++ post).
Proof.
  intros Hw Hn Ha Hs (fv & epv & Hv & Qv & Ev) Qpre Qpost.
  destruct (settled_le _ _ _ Hs) as (fn & eps & Hall & Es).
  set (F := fn + fv + (100 + List.length (concat eps) + List.length epv
                       + List.length (fresh post))).
  destruct (invocation_step defs op named objs eps epv (fresh post) F Hw Hn Ha)
    as (os & Hos & Eos).
  - apply Hall. unfold F. lia.
  - apply (expand_tokens_le _ fv F); [unfold F; lia | exact Hv].
  - exact Qv.
  - exact Qpost.
  - unfold F. lia.
  - pose proof (expand_quiet _ _ Qpre _ _ _ Hos) as H.
    rewrite <- !fresh_app in H.
    apply expands_to_intro in H.
    rewrite !erase_app, erase_fresh, erase_fresh, erase_paint, Eos, Es, Ev in H.
    exact H.
Qed.

(** *** Runs of tokens *)

Lemma ptoken_eqb_refl (t : ptoken) : ptoken_eqb t t = true.
Proof. destruct t; apply String.eqb_refl. Qed.

Lemma starts_nil (t : list ptoken) : starts [] t = true.
Proof. now destruct t. Qed.

Lemma starts_cons (x : ptoken) (p t : list ptoken) :
  starts p t = true -> starts (x :: p) (x :: t) = true.
Proof. intros H. cbn [starts]. now rewrite ptoken_eqb_refl, H. Qed.

Lemma starts_app (e p t : list ptoken) :
  starts p t = true -> starts (e ++ p) (e ++ t) = true.
Proof.
  intros H. induction e as [|x e IH]; cbn [app]; [exact H|].
  now apply starts_cons.
Qed.

Lemma occurs_here (p t : list ptoken) : starts p t = true -> occurs p t = true.
Proof. intros H. destruct t; cbn [occurs]; now rewrite H. Qed.

Lemma occurs_cons (p : list ptoken) (x : ptoken) (t : list ptoken) :
  occurs p t = true -> occurs p (x :: t) = true.
Proof. intros H. cbn [occurs]. rewrite H. apply orb_true_r. Qed.

Lemma occurs_app (p e t : list ptoken) :
  occurs p t = true -> occurs p (e ++ t) = true.
Proof.
  intros H. induction e as [|x e IH]; cbn [app]; [exact H|].
  now apply occurs_cons.
Qed.

(** [p] is at the head of a sequence built from tokens and unknown runs. *)
Ltac starts_here :=
  repeat first [ apply starts_cons | apply starts_app ]; apply starts_nil.

(** [p] is somewhere in it: try every position from the left. *)
Ltac find_occurs :=
  first [ apply occurs_here; solve [starts_here]
        | apply occurs_cons; find_occurs
        | apply occurs_app; find_occurs ].

Ltac spell_directive :=
  cbn [directive_tokens nth if_tokens present_tokens copyin_tokens copy_tokens
       alloc_tokens data_tokens app];
  repeat first [ rewrite <- app_assoc | progress cbn [app] ].

Ltac spell_directive_in H :=
  cbn [directive_tokens nth if_tokens present_tokens copyin_tokens copy_tokens
       alloc_tokens data_tokens app] in H;
  repeat first [ rewrite <- app_assoc in H | progress cbn [app] in H ].

(** *** Names that the header leaves alone *)

Lemma header_names (md : mode) :
  map pm_name (header_macros md)
  = map macro_name [PresentWithCopy; PresentConditional; PresentSimple; Allocate].
Proof. destruct md; vm_compute; reflexivity. Qed.

Lemma find_macro_none (n : string) (env : list pmacro) :
  ~ In n (map pm_name env) -> find_macro n env = None.
Proof.
  unfold find_macro. induction env as [|m env IH]; intros H; cbn [find]; [reflexivity|].
  destruct (String.eqb (pm_name m) n) eqn:E.
  - apply String.eqb_eq in E. elim H. left. exact E.
  - apply IH. intros Hin. apply H. right. exact Hin.
Qed.

Lemma find_other (defs : list pmacro) (n : string) :
  (forall op, n <> macro_name op) ->
  find_macro n defs = None ->
  find_macro n (env_after defs) = None.
Proof.
  intros Hn Hd. rewrite env_after_mode, find_macro_app, Hd.
  rewrite find_macro_none; [reflexivity|].
  rewrite header_names. cbn [map In].
  intros [E|[E|[E|[E|[]]]]]; symmetry in E; revert E; apply Hn.
Qed.

Lemma quiet_other (defs : list pmacro) (ts : list ptoken) :
  (forall n, In (Id n) ts ->
             find_macro n defs = None /\ forall op, n <> macro_name op) ->
  quiet (env_after defs) (fresh ts) = true.
Proof.
  intros H. unfold quiet. rewrite forallb_forall. intros p Hin.
  apply in_map_iff in Hin as [t [<- Ht]]. cbn [fst snd].
  destruct t as [n|c]; [|reflexivity].
  destruct (H n Ht) as [Hd Hn].
  rewrite (find_other defs n Hn Hd). reflexivity.
Qed.

(** Settles an argument of a concrete environment by running the
    expansion. *)
Ltac settle_with fuel :=
  match goal with
  | |- settled ?env ?a _ =>
      let r := eval vm_compute in (expand_tokens fuel env (fresh a)) in
      match r with
      | Some ?ep => exists fuel, ep; repeat split; vm_compute; reflexivity
      end
  end.

End TokenFacts.

(* ------------------------------------------------------------------ *)
(** ** The four macros at their use sites *)

(** Throughout, [defs] are the macros defined before the header is read
    (on the command line or in the source), [words_free defs] says that
    none of them has the name of a word of the directives, and
    [settled env a e] that the argument [a], which the preprocessor
    expands on its own before it puts it in place, comes to [e]; an
    argument that names no macro is settled as itself
    ([quiet_settled]). *)

Module UseSites.
Import Text Cpp MacrosH Tokens CppFacts TokenFacts.

#[local] Strategy 1000 [header header_table macro_table header_macros directive_words].

(** *** The expansion at work *)

(** EXAMPLE 3 of section 6.10.3.5 of the C standard, first line:
    [f(y+1) + f(f(z)) % t(t(g)(0) + t)(1);] comes out as
    [f(2 * (y+1)) + f(2 * (f(2 * (z[0])))) % f(2 * (0)) + t(1);]. *)
Example standard_rescan_first :
  option_map erase (expand_tokens 200 standard_example (fresh
    [Id "f"; Sym "("; Id "y"; Sym "+"; Sym "1"; Sym ")"; Sym "+";
     Id "f"; Sym "("; Id "f"; Sym "("; Id "z"; Sym ")"; Sym ")"; Sym "%";
     Id "t"; Sym "("; Id "t"; Sym "("; Id "g"; Sym ")"; Sym "("; Sym "0"; Sym ")";
     Sym "+"; Id "t"; Sym ")"; Sym "("; Sym "1"; Sym ")"; Sym ";"]))
  = Some
    [Id "f"; Sym "("; Sym "2"; Sym "*"; Sym "("; Id "y"; Sym "+"; Sym "1"; Sym ")"; Sym ")";
     Sym "+";
     Id "f"; Sym "("; Sym "2"; Sym "*"; Sym "(";
       Id "f"; Sym "("; Sym "2"; Sym "*"; Sym "(";
         Id "z"; Sym "["; Sym "0"; Sym "]"; Sym ")"; Sym ")"; Sym ")"; Sym ")";
     Sym "%";
     Id "f"; Sym "("; Sym "2"; Sym "*"; Sym "("; Sym "0"; Sym ")"; Sym ")";
     Sym "+"; Id "t"; Sym "("; Sym "1"; Sym ")"; Sym ";"].
Proof. vm_compute. reflexivity. Qed.

(** Second line: [g(x+(3,4)-w) | h 5) & m (f)^m(m);] comes out as
    [f(2 * (2+(3,4)-0,1)) | f(2 * (~ 5)) & f(2 * (0,1))^m(0,1);]. *)
Example standard_rescan_second :
  option_map erase (expand_tokens 200 standard_example (fresh
    [Id "g"; Sym "("; Id "x"; Sym "+"; Sym "("; Sym "3"; Sym ","; Sym "4"; Sym ")";
     Sym "-"; Id "w"; Sym ")"; Sym "|"; Id "h"; Sym "5"; Sym ")"; Sym "&";
     Id "m"; Sym "("; Id "f"; Sym ")"; Sym "^"; Id "m"; Sym "("; Id "m"; Sym ")"; Sym ";"]))
  = Some
    [Id "f"; Sym "("; Sym "2"; Sym "*"; Sym "(";
       Sym "2"; Sym "+"; Sym "("; Sym "3"; Sym ","; Sym "4"; Sym ")"; Sym "-";
       Sym "0"; Sym ","; Sym "1"; Sym ")"; Sym ")";
     Sym "|";
     Id "f"; Sym "("; Sym "2"; Sym "*"; Sym "("; Sym "~"; Sym "5"; Sym ")"; Sym ")";
     Sym "&";
     Id "f"; Sym "("; Sym "2"; Sym "*"; Sym "("; Sym "0"; Sym ","; Sym "1"; Sym ")"; Sym ")";
     Sym "^"; Id "m"; Sym "("; Sym "0"; Sym ","; Sym "1"; Sym ")"; Sym ";"].
Proof. vm_compute. reflexivity. Qed.

(** A use site inside the argument of another, an empty argument, a
    macro name that nothing defines ([OMPGPU] here), and a macro name
    without parentheses after the use site. *)
Example use_site_in_argument :
  option_map erase (expand_tokens 100 (env_after []) (fresh
    [Id "GPU_DATA_PRESENT_COPY"; Sym "("; Id "OMPGPU"; Sym ","; Sym ",";
       Id "GPU_DATA_ALLOC"; Sym "("; Id "q"; Sym ")"; Sym ")";
     Id "GPU_DATA_ALLOC"; Id "y"]))
  = Some
    [Sym "!"; Id "$acc"; Id "data"; Id "present"; Sym "("; Sym ")";
     Id "copyin"; Sym "("; Sym ")";
     Id "copy"; Sym "(";
       Sym "!"; Id "$acc"; Id "enter"; Id "data"; Id "create"; Sym "("; Id "q"; Sym ")";
     Sym ")";
     Id "if"; Sym "("; Id "OMPGPU"; Sym ")";
     Id "GPU_DATA_ALLOC"; Id "y"].
Proof. vm_compute. reflexivity. Qed.

(** The invocation ends at the parenthesis that matches its first. *)
Example use_site_ends_at_its_parenthesis :
  option_map erase (expand_tokens 100 (env_after [flag_OMPGPU]) (fresh
    [Id "GPU_DATA_ALLOC"; Sym "("; Id "a"; Sym ")"; Sym ","; Id "b"; Sym ")"]))
  = Some
    [Sym "!"; Id "$omp"; Id "target"; Id "data";
     Id "map"; Sym "("; Id "alloc"; Sym ":"; Id "a"; Sym ")";
     Sym ","; Id "b"; Sym ")"].
Proof. vm_compute. reflexivity. Qed.

(** Too few arguments, and a parenthesis that is never closed, are
    errors. *)
Example use_site_errors :
  expand_tokens 100 (env_after []) (fresh
    [Id "GPU_DATA_PRESENT_COPY"; Sym "("; Id "c"; Sym ","; Id "a"; Sym ")"]) = None
  /\ expand_tokens 100 (env_after []) (fresh
       [Id "GPU_DATA_ALLOC"; Sym "("; Id "a"; Sym ","; Id "b"]) = None.
Proof. split; vm_compute; reflexivity. Qed.

(** A word of the directives that was made a macro before the header is
    replaced in the directive: [words_free] is a real condition. *)
Example directive_word_defined :
  option_map erase (expand_tokens 100
    (env_after [ {| pm_name := "data"; pm_params := None; pm_body := [Id "my_data"] |} ])
    (fresh [Id "GPU_DATA_ALLOC"; Sym "("; Id "a"; Sym ")"]))
  = Some [Sym "!"; Id "$acc"; Id "enter"; Id "my_data";
          Id "create"; Sym "("; Id "a"; Sym ")"].
Proof. vm_compute. reflexivity. Qed.

(** On identifiers that name no macro, the coarser expansion on
    spellings, cut into tokens, is the expansion on tokens. *)
Example spelling_agrees_with_tokens :
  option_map body_tokens
    (expansion Offload PresentWithCopy ["c"; "u"; "v"; "a"; "b"])
  = option_map erase (expand_tokens 100 (env_after [flag_OMPGPU]) (fresh
      [Id "GPU_DATA_PRESENT_COPY"; Sym "("; Id "c"; Sym ",";
         Id "u"; Sym ","; Id "v"; Sym ","; Id "a"; Sym ","; Id "b"; Sym ")"])).
Proof. vm_compute. reflexivity. Qed.

(** C1.  Whatever macros are defined beside the header's, in both modes,
    and whatever the guard, the copy-in and copy-out arguments and the
    data objects, the expansion of [GPU_DATA_PRESENT_COPY] exists and
    holds the copy-in argument in [map(to: )] (Offload) or [copyin()]
    (Accelerator), the copy-out argument in [map(tofrom: )] or [copy()],
    the data objects in the present clause and the guard in [if()]; each
    argument stands there as the preprocessor passes it on, that is
    expanded if it names a macro and as it was written otherwise. *)
Theorem PresentWithCopy_clauses (defs : list pmacro) (cond ci co : list ptoken)
    (objs : list (list ptoken)) (ec ei eo ev : list ptoken) :
  words_free defs = true ->
  forallb argument (cond :: ci :: co :: objs) = true ->
  settled (env_after defs) cond ec ->
  settled (env_after defs) ci ei ->
  settled (env_after defs) co eo ->
  settled (env_after defs) (data_list objs) ev ->
  exists t,
    expands_to (env_after defs)
               (use_site "GPU_DATA_PRESENT_COPY" (cond :: ci :: co :: objs)) t
    /\ occurs (copyin_tokens (mode_under defs) ei) t = true
    /\ occurs (copy_tokens (mode_under defs) eo) t = true
    /\ occurs (present_tokens (mode_under defs) ev) t = true
    /\ occurs (if_tokens ec) t = true.
Proof.
  intros Hw Ha Hc Hi Ho Hv.
  pose proof (use_site_expands defs PresentWithCopy [cond; ci; co] objs
                [ec; ei; eo] ev [] [] Hw eq_refl Ha
                (Forall2_cons _ _ Hc (Forall2_cons _ _ Hi
                   (Forall2_cons _ _ Ho (Forall2_nil _)))) Hv eq_refl eq_refl) as H.
  cbn [app] in H. rewrite !app_nil_r in H.
  eexists. split; [exact H|].
  destruct (mode_under defs); spell_directive; repeat split; find_occurs.
Qed.

Lemma PresentWithCopy_clauses_witness :
  exists t,
    expands_to (env_after command_line)
      [Id "GPU_DATA_PRESENT_COPY"; Sym "(";
         Id "N_MAX"; Sym ">"; Sym "0"; Sym ",";
         Id "u"; Sym ",";
         Id "v"; Sym ",";
         Id "a"; Sym ","; Id "b"; Sym "("; Sym "1"; Sym ":"; Id "n"; Sym ")";
       Sym ")"] t
    /\ occurs [Id "map"; Sym "("; Id "to"; Sym ":"; Id "u"; Sym ")"] t = true
    /\ occurs [Id "map"; Sym "("; Id "tofrom"; Sym ":"; Id "v"; Sym ")"] t = true
    /\ occurs [Id "map"; Sym "("; Id "present"; Sym ":";
               Id "a"; Sym ","; Id "b"; Sym "("; Sym "1"; Sym ":"; Id "n"; Sym ")";
               Sym ")"] t = true
    /\ occurs [Id "if"; Sym "("; Sym "100"; Sym ">"; Sym "0"; Sym ")"] t = true.
Proof.
  apply (PresentWithCopy_clauses command_line
           [Id "N_MAX"; Sym ">"; Sym "0"] [Id "u"] [Id "v"]
           [[Id "a"]; [Id "b"; Sym "("; Sym "1"; Sym ":"; Id "n"; Sym ")"]]
           [Sym "100"; Sym ">"; Sym "0"] [Id "u"] [Id "v"]
           [Id "a"; Sym ","; Id "b"; Sym "("; Sym "1"; Sym ":"; Id "n"; Sym ")"]).
  - vm_compute. reflexivity.
  - vm_compute. reflexivity.
  - settle_with 10.
  - settle_with 10.
  - settle_with 10.
  - settle_with 20.
Defined.

(** C2.  [GPU_DATA_ALLOC] over [objs] is [!$omp target data map(alloc:
    objs)] under Offload and [!$acc enter data create(objs)] under
    Accelerator, the data list standing there as the preprocessor passes
    it on; and [GPU_DATA_ALLOC(bufferA)], [bufferA] naming no macro,
    holds the identifier [bufferA] exactly once in either mode. *)
Theorem Allocate_expansion (defs : list pmacro) (objs : list (list ptoken))
    (ev : list ptoken) :
  words_free defs = true ->
  forallb argument objs = true ->
  settled (env_after defs) (data_list objs) ev ->
  expands_to (env_after defs) (use_site "GPU_DATA_ALLOC" objs)
    (match mode_under defs with
     | Offload =>
         [Sym "!"; Id "$omp"; Id "target"; Id "data";
          Id "map"; Sym "("; Id "alloc"; Sym ":"] ++ ev ++ [Sym ")"]
     | Accelerator =>
         [Sym "!"; Id "$acc"; Id "enter"; Id "data";
          Id "create"; Sym "("] ++ ev ++ [Sym ")"]
     end)
  /\ (find_macro "bufferA" defs = None ->
      exists t,
        expands_to (env_after defs)
                   [Id "GPU_DATA_ALLOC"; Sym "("; Id "bufferA"; Sym ")"] t
        /\ tally (Id "bufferA") t = 1).
Proof.
  intros Hw Ha Hv. split.
  - pose proof (use_site_expands defs Allocate [] objs [] ev [] [] Hw eq_refl Ha
                  (Forall2_nil _) Hv eq_refl eq_refl) as H.
    cbn [app] in H. rewrite !app_nil_r in H.
    destruct (mode_under defs); exact H.
  - intros Hb.
    assert (Hs : settled (env_after defs) (data_list [[Id "bufferA"]]) [Id "bufferA"]).
    { apply quiet_settled. cbn [data_list flat_map app fresh map quiet forallb fst snd hidden existsb orb].
      rewrite (find_other defs "bufferA"); [reflexivity | | exact Hb].
      intros op. destruct op; discriminate. }
    pose proof (use_site_expands defs Allocate [] [[Id "bufferA"]] [] [Id "bufferA"] [] []
                  Hw eq_refl eq_refl (Forall2_nil _) Hs eq_refl eq_refl) as H.
    cbn [app] in H. rewrite !app_nil_r in H.
    eexists. split; [exact H|].
    destruct (mode_under defs); reflexivity.
Qed.

Lemma Allocate_expansion_witness :
  expands_to (env_after command_line)
    [Id "GPU_DATA_ALLOC"; Sym "("; Id "a"; Sym ","; Id "N_MAX"; Sym ","; Id "c"; Sym ")"]
    [Sym "!"; Id "$omp"; Id "target"; Id "data"; Id "map"; Sym "("; Id "alloc"; Sym ":";
     Id "a"; Sym ","; Sym "100"; Sym ","; Id "c"; Sym ")"]
  /\ (find_macro "bufferA" command_line = None ->
      exists t,
        expands_to (env_after command_line)
                   [Id "GPU_DATA_ALLOC"; Sym "("; Id "bufferA"; Sym ")"] t
        /\ tally (Id "bufferA") t = 1).
Proof.
  apply (Allocate_expansion command_line [[Id "a"]; [Id "N_MAX"]; [Id "c"]]
           [Id "a"; Sym ","; Sym "100"; Sym ","; Id "c"]).
  - vm_compute. reflexivity.
  - vm_compute. reflexivity.
  - settle_with 20.
Defined.

(** C3.  [GPU_DATA_PRESENT_SIMPLE] over [objs] is the enter-data
    directive [!$omp target enter data map(present: objs)] under Offload
    and the data-region directive [!$acc data present(objs)] under
    Accelerator. *)
Theorem PresentSimple_expansion (defs : list pmacro) (objs : list (list ptoken))
    (ev : list ptoken) :
  words_free defs = true ->
  forallb argument objs = true ->
  settled (env_after defs) (data_list objs) ev ->
  expands_to (env_after defs) (use_site "GPU_DATA_PRESENT_SIMPLE" objs)
    (match mode_under defs with
     | Offload =>
         [Sym "!"; Id "$omp"; Id "target"; Id "enter"; Id "data";
          Id "map"; Sym "("; Id "present"; Sym ":"] ++ ev ++ [Sym ")"]
     | Accelerator =>
         [Sym "!"; Id "$acc"; Id "data"; Id "present"; Sym "("] ++ ev ++ [Sym ")"]
     end).
Proof.
  intros Hw Ha Hv.
  pose proof (use_site_expands defs PresentSimple [] objs [] ev [] [] Hw eq_refl Ha
                (Forall2_nil _) Hv eq_refl eq_refl) as H.
  cbn [app] in H. rewrite !app_nil_r in H.
  destruct (mode_under defs); exact H.
Qed.

Lemma PresentSimple_expansion_witness :
  expands_to (env_after [])
    [Id "GPU_DATA_PRESENT_SIMPLE"; Sym "("; Id "a"; Sym ","; Id "b"; Sym ")"]
    [Sym "!"; Id "$acc"; Id "data"; Id "present"; Sym "(";
     Id "a"; Sym ","; Id "b"; Sym ")"].
Proof.
  apply (PresentSimple_expansion [] [[Id "a"]; [Id "b"]] [Id "a"; Sym ","; Id "b"]).
  - vm_compute. reflexivity.
  - vm_compute. reflexivity.
  - settle_with 10.
Defined.

(** C4, as the claim has it: a guard that names a macro does not stand
    verbatim in the expansion.  With [-DOMPGPU], the mode flag itself
    written as the guard comes out as [if(1)]. *)
Lemma guard_macro_is_expanded :
  expands_to (env_after [flag_OMPGPU])
    [Id "GPU_DATA_PRESENT_IF"; Sym "("; Id "OMPGPU"; Sym ","; Id "a"; Sym ")"]
    [Sym "!"; Id "$omp"; Id "target"; Id "enter"; Id "data";
     Id "if"; Sym "("; Sym "1"; Sym ")";
     Id "map"; Sym "("; Id "present"; Sym ":"; Id "a"; Sym ")"]
  /\ ~ guard_verbatim.
Proof.
  assert (He : expands_to (env_after [flag_OMPGPU])
    [Id "GPU_DATA_PRESENT_IF"; Sym "("; Id "OMPGPU"; Sym ","; Id "a"; Sym ")"]
    [Sym "!"; Id "$omp"; Id "target"; Id "enter"; Id "data";
     Id "if"; Sym "("; Sym "1"; Sym ")";
     Id "map"; Sym "("; Id "present"; Sym ":"; Id "a"; Sym ")"]).
  { apply (expands_to_intro _ 40 _
             (paint ["GPU_DATA_PRESENT_IF"]
                [(Sym "!", []); (Id "$omp", []); (Id "target", []); (Id "enter", []);
                 (Id "data", []); (Id "if", []); (Sym "(", []); (Sym "1", ["OMPGPU"]);
                 (Sym ")", []); (Id "map", []); (Sym "(", []); (Id "present", []);
                 (Sym ":", []); (Id "a", []); (Sym ")", [])])).
    vm_compute. reflexivity. }
  split; [exact He|].
  intros H.
  destruct (H [flag_OMPGPU] [Id "OMPGPU"] [[Id "a"]]) as (t & Ht & Hocc);
    [vm_compute; reflexivity | reflexivity | reflexivity | discriminate |].
  rewrite (expands_to_unique _ _ _ _ Ht He) in Hocc.
  vm_compute in Hocc. discriminate Hocc.
Qed.

(** C4, amended.  In both modes, for every guard none of whose
    identifiers names a macro, the expansion of [GPU_DATA_PRESENT_IF]
    exists and holds the guard token for token inside [if()], beside the
    present clause over the data objects. *)
Theorem PresentConditional_guard (defs : list pmacro) (cond : list ptoken)
    (objs : list (list ptoken)) (ev : list ptoken) :
  words_free defs = true ->
  forallb argument (cond :: objs) = true ->
  quiet (env_after defs) (fresh cond) = true ->
  settled (env_after defs) (data_list objs) ev ->
  exists t,
    expands_to (env_after defs) (use_site "GPU_DATA_PRESENT_IF" (cond :: objs)) t
    /\ occurs (if_tokens cond) t = true
    /\ occurs (present_tokens (mode_under defs) ev) t = true.
Proof.
  intros Hw Ha Qc Hv.
  pose proof (use_site_expands defs PresentConditional [cond] objs [cond] ev [] []
                Hw eq_refl Ha
                (Forall2_cons _ _ (quiet_settled _ _ Qc) (Forall2_nil _))
                Hv eq_refl eq_refl) as H.
  cbn [app] in H. rewrite !app_nil_r in H.
  eexists. split; [exact H|].
  destruct (mode_under defs); spell_directive; split; find_occurs.
Qed.

Lemma PresentConditional_guard_witness :
  exists t,
    expands_to (env_after command_line)
      [Id "GPU_DATA_PRESENT_IF"; Sym "(";
         Id "f"; Sym "("; Id "x"; Sym ","; Id "y"; Sym ")"; Sym ">"; Sym "0"; Sym ",";
         Id "a"; Sym ","; Id "b";
       Sym ")"] t
    /\ occurs [Id "if"; Sym "(";
               Id "f"; Sym "("; Id "x"; Sym ","; Id "y"; Sym ")"; Sym ">"; Sym "0";
               Sym ")"] t = true
    /\ occurs [Id "map"; Sym "("; Id "present"; Sym ":";
               Id "a"; Sym ","; Id "b"; Sym ")"] t = true.
Proof.
  apply (PresentConditional_guard command_line
           [Id "f"; Sym "("; Id "x"; Sym ","; Id "y"; Sym ")"; Sym ">"; Sym "0"]
           [[Id "a"]; [Id "b"]] [Id "a"; Sym ","; Id "b"]).
  - vm_compute. reflexivity.
  - vm_compute. reflexivity.
  - vm_compute. reflexivity.
  - settle_with 10.
Defined.

(** C5, as the claim has it: a list of two copy-in identifiers written in
    second position is not one argument.  The use site is cut at every
    comma outside parentheses: [a] alone is copied in, [b] lands in the
    copy clause and [d] among the data objects. *)
Lemma copy_list_is_split :
  expands_to (env_after [flag_OMPGPU])
    [Id "GPU_DATA_PRESENT_COPY"; Sym "("; Id "c"; Sym ",";
       Id "a"; Sym ","; Id "b"; Sym ",";
       Id "d"; Sym ",";
       Id "x"; Sym ")"]
    [Sym "!"; Id "$omp"; Id "target"; Id "enter"; Id "data";
     Id "if"; Sym "("; Id "c"; Sym ")";
     Id "map"; Sym "("; Id "present"; Sym ":"; Id "d"; Sym ","; Id "x"; Sym ")";
     Id "map"; Sym "("; Id "to"; Sym ":"; Id "a"; Sym ")";
     Id "map"; Sym "("; Id "tofrom"; Sym ":"; Id "b"; Sym ")"]
  /\ ~ copy_lists_of_any_length.
Proof.
  assert (He : expands_to (env_after [flag_OMPGPU])
    [Id "GPU_DATA_PRESENT_COPY"; Sym "("; Id "c"; Sym ",";
       Id "a"; Sym ","; Id "b"; Sym ",";
       Id "d"; Sym ",";
       Id "x"; Sym ")"]
    [Sym "!"; Id "$omp"; Id "target"; Id "enter"; Id "data";
     Id "if"; Sym "("; Id "c"; Sym ")";
     Id "map"; Sym "("; Id "present"; Sym ":"; Id "d"; Sym ","; Id "x"; Sym ")";
     Id "map"; Sym "("; Id "to"; Sym ":"; Id "a"; Sym ")";
     Id "map"; Sym "("; Id "tofrom"; Sym ":"; Id "b"; Sym ")"]).
  { apply (expands_to_intro _ 60 _
             (paint ["GPU_DATA_PRESENT_COPY"] (fresh
                [Sym "!"; Id "$omp"; Id "target"; Id "enter"; Id "data";
                 Id "if"; Sym "("; Id "c"; Sym ")";
                 Id "map"; Sym "("; Id "present"; Sym ":"; Id "d"; Sym ","; Id "x"; Sym ")";
                 Id "map"; Sym "("; Id "to"; Sym ":"; Id "a"; Sym ")";
                 Id "map"; Sym "("; Id "tofrom"; Sym ":"; Id "b"; Sym ")"]))).
    vm_compute. reflexivity. }
  split; [exact He|].
  intros H.
  destruct (H [flag_OMPGPU] [Id "c"] ["a"; "b"] ["d"] [[Id "x"]]) as (t & Ht & Hocc & _);
    [vm_compute; reflexivity | reflexivity | reflexivity | discriminate
    | vm_compute; reflexivity |].
  rewrite (expands_to_unique _ _ _ _ Ht He) in Hocc.
  vm_compute in Hocc. discriminate Hocc.
Qed.

Lemma ids_short (l : list string) :
  List.length l <= 1 -> argument (ids l) = true.
Proof.
  destruct l as [|x [|y l]]; cbn [List.length]; intros H;
    [reflexivity | reflexivity | lia].
Qed.

(** C5, amended.  The second and third arguments of
    [GPU_DATA_PRESENT_COPY] may each be a copy-in / copy-out identifier
    list of at most one identifier; an empty list is accepted, and the
    expansion places the entire copy-in list in the copy-in clause and the
    entire copy-out list in the copy clause.  The data list may be
    missing altogether. *)
Theorem PresentWithCopy_short_lists (defs : list pmacro) (cond : list ptoken)
    (copy_in copy_out : list string) (objs : list (list ptoken))
    (ec ev : list ptoken) :
  words_free defs = true ->
  forallb argument (cond :: objs) = true ->
  settled (env_after defs) cond ec ->
  settled (env_after defs) (data_list objs) ev ->
  List.length copy_in <= 1 ->
  List.length copy_out <= 1 ->
  quiet (env_after defs) (fresh (ids copy_in)) = true ->
  quiet (env_after defs) (fresh (ids copy_out)) = true ->
  exists t,
    expands_to (env_after defs)
               (use_site "GPU_DATA_PRESENT_COPY"
                         (cond :: ids copy_in :: ids copy_out :: objs)) t
    /\ occurs (copyin_tokens (mode_under defs) (ids copy_in)) t = true
    /\ occurs (copy_tokens (mode_under defs) (ids copy_out)) t = true.
Proof.
  intros Hw Ha Hc Hv Li Lo Qi Qo.
  cbn [forallb] in Ha. apply andb_true_iff in Ha as [Hac Hao].
  assert (Ha' : forallb argument ([cond; ids copy_in; ids copy_out] ++ objs) = true).
  { cbn [forallb app]. now rewrite Hac, (ids_short _ Li), (ids_short _ Lo), Hao. }
  pose proof (use_site_expands defs PresentWithCopy [cond; ids copy_in; ids copy_out] objs
                [ec; ids copy_in; ids copy_out] ev [] [] Hw eq_refl Ha'
                (Forall2_cons _ _ Hc
                   (Forall2_cons _ _ (quiet_settled _ _ Qi)
                      (Forall2_cons _ _ (quiet_settled _ _ Qo) (Forall2_nil _))))
                Hv eq_refl eq_refl) as H.
  cbn [app] in H. rewrite !app_nil_r in H.
  eexists. split; [exact H|].
  destruct (mode_under defs); spell_directive; split; find_occurs.
Qed.

Lemma PresentWithCopy_short_lists_witness :
  exists t,
    expands_to (env_after [])
      [Id "GPU_DATA_PRESENT_COPY"; Sym "("; Id "n"; Sym ">"; Sym "0"; Sym ",";
         Sym ",";
         Id "v";
       Sym ")"] t
    /\ occurs [Id "copyin"; Sym "("; Sym ")"] t = true
    /\ occurs [Id "copy"; Sym "("; Id "v"; Sym ")"] t = true.
Proof.
  apply (PresentWithCopy_short_lists [] [Id "n"; Sym ">"; Sym "0"] [] ["v"] []
           [Id "n"; Sym ">"; Sym "0"] []).
  - vm_compute. reflexivity.
  - vm_compute. reflexivity.
  - settle_with 10.
  - settle_with 10.
  - cbn. lia.
  - cbn. lia.
  - vm_compute. reflexivity.
  - vm_compute. reflexivity.
Defined.

(** *** Further properties of the use sites *)

(** X1.  [GPU_DATA_PRESENT_IF] in full: under Offload the guard comes
    before the present clause, under Accelerator after it. *)
Theorem PresentConditional_expansion (defs : list pmacro) (cond : list ptoken)
    (objs : list (list ptoken)) (ec ev : list ptoken) :
  words_free defs = true ->
  forallb argument (cond :: objs) = true ->
  settled (env_after defs) cond ec ->
  settled (env_after defs) (data_list objs) ev ->
  expands_to (env_after defs) (use_site "GPU_DATA_PRESENT_IF" (cond :: objs))
    (match mode_under defs with
     | Offload =>
         [Sym "!"; Id "$omp"; Id "target"; Id "enter"; Id "data"; Id "if"; Sym "("]
         ++ ec ++ [Sym ")"; Id "map"; Sym "("; Id "present"; Sym ":"]
         ++ ev ++ [Sym ")"]
     | Accelerator =>
         [Sym "!"; Id "$acc"; Id "data"; Id "present"; Sym "("]
         ++ ev ++ [Sym ")"; Id "if"; Sym "("] ++ ec ++ [Sym ")"]
     end).
Proof.
  intros Hw Ha Hc Hv.
  pose proof (use_site_expands defs PresentConditional [cond] objs [ec] ev [] []
                Hw eq_refl Ha (Forall2_cons _ _ Hc (Forall2_nil _))
                Hv eq_refl eq_refl) as H.
  cbn [app] in H. rewrite !app_nil_r in H.
  destruct (mode_under defs); spell_directive; spell_directive_in H; exact H.
Qed.

Lemma PresentConditional_expansion_witness :
  expands_to (env_after command_line)
    [Id "GPU_DATA_PRESENT_IF"; Sym "("; Id "n"; Sym "<"; Id "N_MAX"; Sym ",";
       Id "a"; Sym ","; Id "b"; Sym ")"]
    [Sym "!"; Id "$omp"; Id "target"; Id "enter"; Id "data";
     Id "if"; Sym "("; Id "n"; Sym "<"; Sym "100"; Sym ")";
     Id "map"; Sym "("; Id "present"; Sym ":"; Id "a"; Sym ","; Id "b"; Sym ")"].
Proof.
  apply (PresentConditional_expansion command_line [Id "n"; Sym "<"; Id "N_MAX"]
           [[Id "a"]; [Id "b"]] [Id "n"; Sym "<"; Sym "100"] [Id "a"; Sym ","; Id "b"]).
  - vm_compute. reflexivity.
  - vm_compute. reflexivity.
  - settle_with 10.
  - settle_with 10.
Defined.

(** X2.  [GPU_DATA_PRESENT_COPY] in full.  Offload: guard, present clause,
    [map(to: )], [map(tofrom: )]; Accelerator: present clause, [copyin()],
    [copy()], guard. *)
Theorem PresentWithCopy_expansion (defs : list pmacro) (cond ci co : list ptoken)
    (objs : list (list ptoken)) (ec ei eo ev : list ptoken) :
  words_free defs = true ->
  forallb argument (cond :: ci :: co :: objs) = true ->
  settled (env_after defs) cond ec ->
  settled (env_after defs) ci ei ->
  settled (env_after defs) co eo ->
  settled (env_after defs) (data_list objs) ev ->
  expands_to (env_after defs)
    (use_site "GPU_DATA_PRESENT_COPY" (cond :: ci :: co :: objs))
    (match mode_under defs with
     | Offload =>
         [Sym "!"; Id "$omp"; Id "target"; Id "enter"; Id "data"; Id "if"; Sym "("]
         ++ ec ++ [Sym ")"; Id "map"; Sym "("; Id "present"; Sym ":"]
         ++ ev ++ [Sym ")"; Id "map"; Sym "("; Id "to"; Sym ":"]
         ++ ei ++ [Sym ")"; Id "map"; Sym "("; Id "tofrom"; Sym ":"]
         ++ eo ++ [Sym ")"]
     | Accelerator =>
         [Sym "!"; Id "$acc"; Id "data"; Id "present"; Sym "("]
         ++ ev ++ [Sym ")"; Id "copyin"; Sym "("]
         ++ ei ++ [Sym ")"; Id "copy"; Sym "("]
         ++ eo ++ [Sym ")"; Id "if"; Sym "("] ++ ec ++ [Sym ")"]
     end).
Proof.
  intros Hw Ha Hc Hi Ho Hv.
  pose proof (use_site_expands defs PresentWithCopy [cond; ci; co] objs
                [ec; ei; eo] ev [] [] Hw eq_refl Ha
                (Forall2_cons _ _ Hc (Forall2_cons _ _ Hi
                   (Forall2_cons _ _ Ho (Forall2_nil _)))) Hv eq_refl eq_refl) as H.
  cbn [app] in H. rewrite !app_nil_r in H.
  destruct (mode_under defs); spell_directive; spell_directive_in H; exact H.
Qed.

Lemma PresentWithCopy_expansion_witness :
  expands_to (env_after [])
    [Id "GPU_DATA_PRESENT_COPY"; Sym "("; Id "n"; Sym ">"; Sym "0"; Sym ",";
       Id "u"; Sym ","; Id "v"; Sym ","; Id "a"; Sym ","; Id "b"; Sym ")"]
    [Sym "!"; Id "$acc"; Id "data";
     Id "present"; Sym "("; Id "a"; Sym ","; Id "b"; Sym ")";
     Id "copyin"; Sym "("; Id "u"; Sym ")";
     Id "copy"; Sym "("; Id "v"; Sym ")";
     Id "if"; Sym "("; Id "n"; Sym ">"; Sym "0"; Sym ")"].
Proof.
  apply (PresentWithCopy_expansion [] [Id "n"; Sym ">"; Sym "0"] [Id "u"] [Id "v"]
           [[Id "a"]; [Id "b"]]
           [Id "n"; Sym ">"; Sym "0"] [Id "u"] [Id "v"] [Id "a"; Sym ","; Id "b"]).
  - vm_compute. reflexivity.
  - vm_compute. reflexivity.
  - settle_with 10.
  - settle_with 10.
  - settle_with 10.
  - settle_with 10.
Defined.

(** X5.  Whatever the operation and the mode, all that follows the named
    arguments lands, commas included, in the one clause that carries the
    data objects: [map(alloc: )] or [create()] for [GPU_DATA_ALLOC], the
    present clause for the three others. *)
Theorem data_objects_in_data_clause (defs : list pmacro) (op : operation)
    (named objs es : list (list ptoken)) (ev : list ptoken) :
  words_free defs = true ->
  List.length named = arity op ->
  forallb argument (named ++ objs) = true ->
  Forall2 (settled (env_after defs)) named es ->
  settled (env_after defs) (data_list objs) ev ->
  exists t,
    expands_to (env_after defs) (use_site (macro_name op) (named ++ objs)) t
    /\ occurs (data_tokens (mode_under defs) op ev) t = true.
Proof.
  intros Hw Hn Ha Hs Hv.
  pose proof (use_site_expands defs op named objs es ev [] [] Hw Hn Ha Hs Hv
                eq_refl eq_refl) as H.
  cbn [app] in H. rewrite !app_nil_r in H.
  eexists. split; [exact H|].
  destruct (mode_under defs), op; spell_directive; find_occurs.
Qed.

Lemma data_objects_in_data_clause_witness :
  exists t,
    expands_to (env_after command_line)
      [Id "GPU_DATA_PRESENT_IF"; Sym "("; Id "c"; Sym ",";
         Id "a"; Sym "("; Sym ":"; Sym ","; Sym ":"; Sym ")"; Sym ","; Id "b"; Sym ")"] t
    /\ occurs [Id "map"; Sym "("; Id "present"; Sym ":";
               Id "a"; Sym "("; Sym ":"; Sym ","; Sym ":"; Sym ")"; Sym ","; Id "b";
               Sym ")"] t = true.
Proof.
  apply (data_objects_in_data_clause command_line PresentConditional [[Id "c"]]
           [[Id "a"; Sym "("; Sym ":"; Sym ","; Sym ":"; Sym ")"]; [Id "b"]] [[Id "c"]]
           [Id "a"; Sym "("; Sym ":"; Sym ","; Sym ":"; Sym ")"; Sym ","; Id "b"]).
  - vm_compute. reflexivity.
  - reflexivity.
  - vm_compute. reflexivity.
  - constructor; [settle_with 10 | constructor].
  - settle_with 20.
Defined.

(** X7.  Under Offload the expansion of [GPU_DATA_PRESENT_COPY] is that of
    [GPU_DATA_PRESENT_IF] on the same guard and data objects, followed by
    the two copy clauses.  Under Accelerator the expansion of
    [GPU_DATA_PRESENT_SIMPLE] is the common head: [GPU_DATA_PRESENT_IF]
    appends the guard to it, and [GPU_DATA_PRESENT_COPY] appends the two
    copy clauses and then the guard. *)
Theorem present_family_composition (defs : list pmacro) (cond ci co : list ptoken)
    (objs : list (list ptoken)) (ec ei eo ev : list ptoken) :
  words_free defs = true ->
  forallb argument (cond :: ci :: co :: objs) = true ->
  settled (env_after defs) cond ec ->
  settled (env_after defs) ci ei ->
  settled (env_after defs) co eo ->
  settled (env_after defs) (data_list objs) ev ->
  exists ps pi pc,
    expands_to (env_after defs) (use_site "GPU_DATA_PRESENT_SIMPLE" objs) ps
    /\ expands_to (env_after defs) (use_site "GPU_DATA_PRESENT_IF" (cond :: objs)) pi
    /\ expands_to (env_after defs)
                  (use_site "GPU_DATA_PRESENT_COPY" (cond :: ci :: co :: objs)) pc
    /\ match mode_under defs with
       | Offload =>
           pc = pi ++ copyin_tokens Offload ei ++ copy_tokens Offload eo
       | Accelerator =>
           pi = ps ++ if_tokens ec
           /\ pc = ps ++ copyin_tokens Accelerator ei ++ copy_tokens Accelerator eo
                     ++ if_tokens ec
       end.
Proof.
  intros Hw Ha Hc Hi Ho Hv.
  assert (Ha1 : forallb argument (cond :: objs) = true).
  { cbn [forallb] in *. apply andb_true_iff in Ha as [A1 Ha].
    apply andb_true_iff in Ha as [_ Ha]. apply andb_true_iff in Ha as [_ Ha].
    rewrite A1. exact Ha. }
  assert (Ha0 : forallb argument objs = true).
  { cbn [forallb] in Ha1. apply andb_true_iff in Ha1 as [_ Ha1]. exact Ha1. }
  pose proof (use_site_expands defs PresentSimple [] objs [] ev [] [] Hw eq_refl Ha0
                (Forall2_nil _) Hv eq_refl eq_refl) as H0.
  pose proof (use_site_expands defs PresentConditional [cond] objs [ec] ev [] []
                Hw eq_refl Ha1 (Forall2_cons _ _ Hc (Forall2_nil _))
                Hv eq_refl eq_refl) as H1.
  pose proof (use_site_expands defs PresentWithCopy [cond; ci; co] objs
                [ec; ei; eo] ev [] [] Hw eq_refl Ha
                (Forall2_cons _ _ Hc (Forall2_cons _ _ Hi
                   (Forall2_cons _ _ Ho (Forall2_nil _)))) Hv eq_refl eq_refl) as H2.
  cbn [app] in H0, H1, H2. rewrite !app_nil_r in H0, H1, H2.
  do 3 eexists. split; [exact H0|]. split; [exact H1|]. split; [exact H2|].
  destruct (mode_under defs); [|split]; spell_directive; reflexivity.
Qed.

Lemma present_family_composition_witness :
  exists ps pi pc,
    expands_to (env_after command_line)
      [Id "GPU_DATA_PRESENT_SIMPLE"; Sym "("; Id "a"; Sym ")"] ps
    /\ expands_to (env_after command_line)
      [Id "GPU_DATA_PRESENT_IF"; Sym "("; Id "c"; Sym ","; Id "a"; Sym ")"] pi
    /\ expands_to (env_after command_line)
      [Id "GPU_DATA_PRESENT_COPY"; Sym "("; Id "c"; Sym ","; Id "u"; Sym ",";
         Id "v"; Sym ","; Id "a"; Sym ")"] pc
    /\ pc = pi ++ [Id "map"; Sym "("; Id "to"; Sym ":"; Id "u"; Sym ")";
                   Id "map"; Sym "("; Id "tofrom"; Sym ":"; Id "v"; Sym ")"].
Proof.
  apply (present_family_composition command_line [Id "c"] [Id "u"] [Id "v"] [[Id "a"]]
           [Id "c"] [Id "u"] [Id "v"] [Id "a"]).
  - vm_compute. reflexivity.
  - vm_compute. reflexivity.
  - settle_with 10.
  - settle_with 10.
  - settle_with 10.
  - settle_with 10.
Defined.

(** X11.  The header adds four names and no other: a sequence of tokens
    in which no identifier is one of them, nor a macro defined before the
    header, comes out as it went in. *)
Theorem other_tokens_untouched (defs : list pmacro) (ts : list ptoken) :
  (forall n, In (Id n) ts ->
             find_macro n defs = None /\ forall op, n <> macro_name op) ->
  expands_to (env_after defs) ts ts.
Proof.
  intros H. pose proof (quiet_other defs ts H) as Q.
  pose proof (expand_quiet_all _ _ _ Q (Nat.le_refl _)) as E.
  apply expands_to_intro in E. rewrite erase_fresh in E. exact E.
Qed.

Lemma other_tokens_untouched_witness :
  expands_to (env_after command_line)
    [Id "call"; Id "solve"; Sym "("; Id "a"; Sym ","; Id "target"; Sym ")"]
    [Id "call"; Id "solve"; Sym "("; Id "a"; Sym ","; Id "target"; Sym ")"].
Proof.
  apply (other_tokens_untouched command_line
           [Id "call"; Id "solve"; Sym "("; Id "a"; Sym ","; Id "target"; Sym ")"]).
  intros n Hin. cbn [In] in Hin.
  repeat (destruct Hin as [Hin|Hin];
          [ try discriminate Hin; injection Hin as <-;
            (split; [reflexivity | intros op; destruct op; discriminate]) |]).
  destruct Hin.
Defined.

(** X12.  A use site expands where it stands: the tokens before it and
    those after its closing parenthesis are kept, the use site is cut at
    the commas outside parentheses only, and once per named parameter,
    so that a guard such as [f(x, y) > 0] stays whole and all that
    follows the named arguments is the data list. *)
Theorem use_site_in_place (defs : list pmacro) (op : operation)
    (named objs es : list (list ptoken)) (ev pre post : list ptoken) :
  words_free defs = true ->
  List.length named = arity op ->
  forallb argument (named ++ objs) = true ->
  Forall2 (settled (env_after defs)) named es ->
  settled (env_after defs) (data_list objs) ev ->
  quiet (env_after defs) (fresh pre) = true ->
  quiet (env_after defs) (fresh post) = true ->
  expands_to (env_after defs)
    (pre ++ use_site (macro_name op) (named ++ objs) ++ post)
    (pre ++ directive_tokens (mode_under defs) op es ev ++ post).
Proof. exact (use_site_expands defs op named objs es ev pre post). Qed.

Lemma use_site_in_place_witness :
  expands_to (env_after [])
    [Id "x"; Sym "=";
     Id "GPU_DATA_PRESENT_IF"; Sym "(";
       Id "f"; Sym "("; Id "x"; Sym ","; Id "y"; Sym ")"; Sym ">"; Sym "0"; Sym ",";
       Id "a"; Sym ","; Id "b";
     Sym ")";
     Sym ")"; Id "tail"]
    [Id "x"; Sym "=";
     Sym "!"; Id "$acc"; Id "data";
     Id "present"; Sym "("; Id "a"; Sym ","; Id "b"; Sym ")";
     Id "if"; Sym "(";
       Id "f"; Sym "("; Id "x"; Sym ","; Id "y"; Sym ")"; Sym ">"; Sym "0";
     Sym ")";
     Sym ")"; Id "tail"].
Proof.
  apply (use_site_in_place [] PresentConditional
           [[Id "f"; Sym "("; Id "x"; Sym ","; Id "y"; Sym ")"; Sym ">"; Sym "0"]]
           [[Id "a"]; [Id "b"]]
           [[Id "f"; Sym "("; Id "x"; Sym ","; Id "y"; Sym ")"; Sym ">"; Sym "0"]]
           [Id "a"; Sym ","; Id "b"]
           [Id "x"; Sym "="] [Sym ")"; Id "tail"]).
  - vm_compute. reflexivity.
  - reflexivity.
  - vm_compute. reflexivity.
  - constructor; [settle_with 20 | constructor].
  - settle_with 10.
  - vm_compute. reflexivity.
  - vm_compute. reflexivity.
Defined.

End UseSites.
